(** * Hydra: a publish/subscribe graph of processing nodes

    A shallow embedding of [hydra_core.py], [hydra_common.py], [hydra_net.py]
    and [hydra_rest.py], with the header strategy and the graph of
    [example.py], and the properties of the graph, the lifecycle of the
    threads, the queue, the TCP framing, the UDP node and the nodes that pass
    items on that were checked against it.

    Python objects are identified by an object identity ([ObjId]); sets of
    objects are [gset]s, lists are lists, [bytes] are lists of bytes and
    Python integers are [Z].  Methods that mutate [self] take the state and
    return the new one; methods that can raise return an [Outcome]. *)

From stdpp Require Import gmap strings list.
From Stdlib Require Import ZArith.
From Stdlib.Strings Require Import Byte.

Open Scope Z_scope.
Open Scope nat_scope.

(** ** Object identities and exceptions *)

Definition ObjId := nat.

(** The [bytes] values handled by the network nodes. *)
Definition bytes := list byte.

(** * hydra_core *)
Module Core.

(** ** Publisher *)

(** One call [subscriber.notify(publisher, item)]. *)
Record Call (Item : Type) := Notify {
  callee : ObjId;
  publisher : ObjId;
  item_of : Item
}.
Arguments Notify {Item} _ _ _.
Arguments callee {Item} _.
Arguments publisher {Item} _.
Arguments item_of {Item} _.

(** [Publisher]: the only field is the set of subscribers. *)
Record Publisher := { subscribers : gset ObjId }.

(** [Publisher.__init__]: [self.subscribers = set()]. *)
Definition Publisher_init : Publisher := {| subscribers := ∅ |}.

(** [Publisher.add_subscriber]: [self.subscribers.add(subscriber)]. *)
Definition add_subscriber (self : Publisher) (subscriber : ObjId) : Publisher :=
  {| subscribers := {[subscriber]} ∪ subscribers self |}.

(** [Publisher.notify_all]: one [notify] call per element of the set, in the
    set's iteration order.  [self_id] is the identity of the publisher, passed
    as the first argument of [notify]. *)
Definition notify_all {Item} (self_id : ObjId) (self : Publisher) (item : Item)
  : list (Call Item) :=
  (λ subscriber, Notify subscriber self_id item) <$> elements (subscribers self).

(** ** Node *)

(** A node object: its identity, its [name] attribute and whether its class
    derives from [threading.Thread] ([Source], [SourceSink],
    [ActiveQueueNode] do; [Sink], [IntermediateNode] do not). *)
Record Node := {
  node_id : ObjId;
  name : string;
  is_thread : bool
}.

#[global] Instance Node_eq_dec : EqDecision Node.
Proof. solve_decision. Defined.

#[global] Instance Node_countable : Countable Node.
Proof.
  refine (inj_countable'
            (λ n, (node_id n, name n, is_thread n))
            (λ t, {| node_id := t.1.1; name := t.1.2; is_thread := t.2 |}) _).
  by intros [].
Defined.

(** ** Exceptions *)

Inductive exn :=
| NotImplementedError
| ValueError
| AttributeError
| DuplicateNodeNameError (node : Node) (graph : string)
| SocketTimeout
| ConnectionError
| OSError.

(** The result of running a method on a state [S]: it returns a value, raises,
    blocks forever in a blocking call, or the evaluation ran out of fuel. *)
Inductive Outcome (S A : Type) :=
| Return (a : A) (s : S)
| Raise (e : exn) (s : S)
| Blocked (s : S)
| OutOfFuel.
Arguments Return {S A} _ _.
Arguments Raise {S A} _ _.
Arguments Blocked {S A} _.
Arguments OutOfFuel {S A}.

(** ** Graph *)

Record Graph := {
  graph_name : string;
  nodes : gset Node;
  executable_nodes : list Node
}.

(** [Graph.__init__]. *)
Definition Graph_init (name : string) : Graph :=
  {| graph_name := name; nodes := ∅; executable_nodes := [] |}.

(** [Graph.has_node_with_name]: a loop over the set that returns [True] at the
    first node with that name. *)
Definition has_node_with_name (self : Graph) (node_name : string) : bool :=
  existsb (λ n, bool_decide (name n = node_name)) (elements (nodes self)).

(** [Graph.add]. *)
Definition add (self : Graph) (node : Node) : Outcome Graph unit :=
  if negb (has_node_with_name self (name node)) then
    let self1 := {| graph_name := graph_name self;
                    nodes := {[node]} ∪ nodes self;
                    executable_nodes := executable_nodes self |} in
    if is_thread node then
      Return tt {| graph_name := graph_name self1;
                   nodes := nodes self1;
                   executable_nodes := executable_nodes self1 ++ [node] |}
    else Return tt self1
  else Raise (DuplicateNodeNameError node (graph_name self)) self.

(** [list.remove(x)]: removes the first element equal to [x]; [None] stands
    for the [ValueError] raised when there is none. *)
Fixpoint list_remove (x : Node) (l : list Node) : option (list Node) :=
  match l with
  | [] => None
  | y :: l' => if decide (y = x) then Some l'
               else cons y <$> list_remove x l'
  end.

(** [Graph.remove].  The test of the source is [node is threading.Thread()]:
    the identity of [node] against the identity of a thread object that the
    expression has just constructed; [fresh] is the identity of that new
    object. *)
Definition remove (fresh : ObjId) (self : Graph) (node : Node)
  : Outcome Graph unit :=
  if decide (node ∈ nodes self) then
    let after_thread_test :=
      if bool_decide (node_id node = fresh) then
        match list_remove node (executable_nodes self) with
        | Some l => Return tt {| graph_name := graph_name self;
                                 nodes := nodes self;
                                 executable_nodes := l |}
        | None => Raise ValueError self
        end
      else Return tt self in
    match after_thread_test with
    | Return _ self1 =>
        Return tt {| graph_name := graph_name self1;
                     nodes := nodes self1 ∖ {[node]};
                     executable_nodes := executable_nodes self1 |}
    | other => other
    end
  else Return tt self.

(** [Graph.clear]. *)
Definition clear (self : Graph) : Graph :=
  {| graph_name := graph_name self; nodes := ∅; executable_nodes := [] |}.

(** *** Starting and stopping the nodes *)

(** The calls a graph makes on its executable nodes. *)
Inductive NodeCall :=
| CallStart (n : Node)
| CallStop (n : Node)
| CallJoin (n : Node).

(** The iterator object returned by [reversed(a_list)]: the list and the
    number of items it has not yet yielded (the index of the next item, plus
    one). *)
Record listreviter := {
  it_index : nat;
  it_seq : list Node
}.

Definition reversed (l : list Node) : listreviter :=
  {| it_index := length l; it_seq := l |}.

(** [next(it)]: [None] is [StopIteration]. *)
Definition next (it : listreviter) : option Node * listreviter :=
  match it_index it with
  | 0 => (None, it)
  | S i =>
      match it_seq it !! i with
      | Some x => (Some x, {| it_index := i; it_seq := it_seq it |})
      | None => (None, {| it_index := 0; it_seq := it_seq it |})
      end
  end.

(** [for node in it: body(node)]: calls [next] until it reports
    [StopIteration] and returns the iterator as the loop leaves it.  The
    recursion is on the iterator's index, which every [next] decreases. *)
Fixpoint for_in_from {S} (i : nat) (seq : list Node) (body : Node → S → S) (s : S)
  : listreviter * S :=
  match i with
  | 0 => ({| it_index := 0; it_seq := seq |}, s)
  | S i' =>
      match seq !! i' with
      | Some x => for_in_from i' seq body (body x s)
      | None => ({| it_index := 0; it_seq := seq |}, s)
      end
  end.

Definition for_in {S} (it : listreviter) (body : Node → S → S) (s : S)
  : listreviter * S :=
  for_in_from (it_index it) (it_seq it) body s.

(** [Graph.execute]: [node.start()] for each executable node. *)
Definition execute (self : Graph) (log : list NodeCall) : list NodeCall :=
  foldl (λ log node, log ++ [CallStart node]) log (executable_nodes self).

(** [Graph.stop]: both loops run over the same iterator object [nodes]. *)
Definition stop (self : Graph) (log : list NodeCall) : list NodeCall :=
  let nodes := reversed (executable_nodes self) in
  let '(nodes, log) :=
    for_in nodes (λ node log, log ++ [CallStop node]) log in
  let '(nodes, log) :=
    for_in nodes (λ node log, log ++ [CallJoin node]) log in
  log.

(** *** The invariant of a graph, and the graphs of the examples *)

(** The executable nodes are nodes of the graph. *)
Definition executable_in_nodes (g : Graph) : Prop :=
  ∀ n, n ∈ executable_nodes g → n ∈ nodes g.

(** The nodes used in the examples. *)
Definition source_a : Node := {| node_id := 1; name := "a"; is_thread := true |}.
Definition source_b : Node := {| node_id := 2; name := "b"; is_thread := true |}.
Definition source_c : Node := {| node_id := 3; name := "c"; is_thread := true |}.
Definition other_a : Node := {| node_id := 4; name := "a"; is_thread := false |}.

Definition graph_a : Graph :=
  {| graph_name := "g"; nodes := {[source_a]}; executable_nodes := [source_a] |}.

(** The graph to which a, b and c are added in that order. *)
Definition graph_abc : Graph :=
  {| graph_name := "g";
     nodes := {[source_c]} ∪ ({[source_b]} ∪ ({[source_a]} ∪ ∅));
     executable_nodes := [source_a; source_b; source_c] |}.

(** *** Sequences of calls on a graph *)

(** The graph as a call leaves it, whether the call returns or raises. *)
Definition graph_after (g : Graph) (o : Outcome Graph unit) : Graph :=
  match o with
  | Return _ g' | Raise _ g' | Blocked g' => g'
  | OutOfFuel => g
  end.

(** The calls that change a graph.  [fresh] is the identity of the thread
    object that the test of [remove] constructs. *)
Inductive GraphOp :=
| OpAdd (node : Node)
| OpRemove (fresh : ObjId) (node : Node)
| OpClear.

(** One call, made by a caller that goes on whether it raises or not. *)
Definition apply_op (g : Graph) (op : GraphOp) : Graph :=
  match op with
  | OpAdd node => graph_after g (add g node)
  | OpRemove fresh node => graph_after g (remove fresh g node)
  | OpClear => clear g
  end.

Definition apply_ops (g : Graph) (ops : list GraphOp) : Graph :=
  foldl apply_op g ops.

(** [for node in ns: g.add(node)]: the first exception ends the loop. *)
Fixpoint add_all (g : Graph) (ns : list Node) : Outcome Graph unit :=
  match ns with
  | [] => Return tt g
  | node :: ns' =>
      match add g node with
      | Return _ g' => add_all g' ns'
      | other => other
      end
  end.

(** No two nodes of the graph have the same name. *)
Definition unique_names (g : Graph) : Prop :=
  ∀ n m, n ∈ nodes g → m ∈ nodes g → name n = name m → n = m.

(** The thread-owning nodes of a list, in the order of the list. *)
Definition threads (ns : list Node) : list Node :=
  filter (λ n, is_thread n = true) ns.


(** The nodes that [example.py] makes, in the order in which it adds them to
    its graph: a [TcpSourceSink], a [RestService], an [ActiveQueueNode] and a
    [UdpSourceSink], which are threads, and a [LoggerNode], which is not. *)
Definition src1 : Node :=
  {| node_id := 11; name := "TCP Source #1"; is_thread := true |}.
Definition src2 : Node :=
  {| node_id := 12; name := "REST source #1"; is_thread := true |}.
Definition queue1 : Node :=
  {| node_id := 13; name := "Queue #1"; is_thread := true |}.
Definition sink1 : Node :=
  {| node_id := 14; name := "UDP Sink #1"; is_thread := true |}.
Definition log1 : Node :=
  {| node_id := 15; name := "Logging #1"; is_thread := false |}.

Definition example_nodes : list Node := [src1; src2; queue1; sink1; log1].

End Core.

(** * hydra_common *)
Module Common.
Import Core.

Section ActiveQueueNode.
Context {Item : Type}.

(** [ActiveQueueNode]: an [IntermediateNode] (name, subscribers) that is also
    a thread with a stop flag, and owns a [queue.Queue].  The queue is first
    in, first out: [put] appends at the tail and [get] takes the head. *)
Record ActiveQueueNode := {
  aq_id : ObjId;
  aq_name : string;
  aq_publisher : Publisher;
  stopped : bool;
  queue : list Item
}.

(** [ActiveQueueNode.__init__]. *)
Definition ActiveQueueNode_init (id : ObjId) (name : string) : ActiveQueueNode :=
  {| aq_id := id; aq_name := name; aq_publisher := Publisher_init;
     stopped := false; queue := [] |}.

Definition set_queue (self : ActiveQueueNode) (q : list Item) : ActiveQueueNode :=
  {| aq_id := aq_id self; aq_name := aq_name self;
     aq_publisher := aq_publisher self; stopped := stopped self; queue := q |}.

(** [Publisher.add_subscriber], inherited. *)
Definition aq_add_subscriber (self : ActiveQueueNode) (subscriber : ObjId)
  : ActiveQueueNode :=
  {| aq_id := aq_id self; aq_name := aq_name self;
     aq_publisher := add_subscriber (aq_publisher self) subscriber;
     stopped := stopped self; queue := queue self |}.

(** [Stoppable.stop]: [self.stopped.set()]. *)
Definition aq_stop (self : ActiveQueueNode) : ActiveQueueNode :=
  {| aq_id := aq_id self; aq_name := aq_name self;
     aq_publisher := aq_publisher self; stopped := true; queue := queue self |}.

(** [ActiveQueueNode.notify]: [self.queue.put(item)]. *)
Definition notify (self : ActiveQueueNode) (publisher : ObjId) (item : Item)
  : ActiveQueueNode :=
  set_queue self (queue self ++ [item]).

(** [self.queue.get(timeout=1.0)]: the head of the queue, or [None] for the
    [Empty] exception when the wait times out on an empty queue. *)
Definition queue_get (self : ActiveQueueNode) : option Item * ActiveQueueNode :=
  match queue self with
  | [] => (None, self)
  | item :: q => (Some item, set_queue self q)
  end.

(** The node together with its thread: [in_loop] holds while the thread is
    inside the [while] loop of [run], [calls] are the [notify] calls the thread
    has made on the subscribers. *)
Record Running := {
  node : ActiveQueueNode;
  in_loop : bool;
  calls : list (Call Item)
}.

(** [Thread.start]: the thread enters [run]. *)
Definition start (self : ActiveQueueNode) : Running :=
  {| node := self; in_loop := true; calls := [] |}.

(** One turn of the loop of [ActiveQueueNode.run]: the test of the stop flag,
    and the body, [get] followed by [notify_all] or by the handler of
    [Empty]. *)
Definition run_turn (r : Running) : Running :=
  if in_loop r then
    if stopped (node r) then
      {| node := node r; in_loop := false; calls := calls r |}
    else
      match queue_get (node r) with
      | (Some item, self) =>
          {| node := self; in_loop := true;
             calls := calls r
                      ++ notify_all (aq_id self) (aq_publisher self) item |}
      | (None, self) => {| node := self; in_loop := true; calls := calls r |}
      end
  else r.

(** [ActiveQueueNode.run] on its own, with no other thread acting: turns of the
    loop until the stop flag is seen. *)
Fixpoint run (fuel : nat) (r : Running) : option Running :=
  match fuel with
  | 0 => None
  | S fuel' =>
      let r' := run_turn r in
      if in_loop r' then run fuel' r' else Some r'
  end.

(** What the threads of the program do to the node, one step at a time:
    a publisher's thread calls [notify], some thread calls [stop], or the
    node's own thread runs one turn of its loop.  [put] and [get] are atomic
    (the queue is locked), so an execution is a sequence of such steps. *)
Inductive Step :=
| DoNotify (publisher : ObjId) (item : Item)
| DoStop
| DoTurn.

Definition step (r : Running) (a : Step) : Running :=
  match a with
  | DoNotify publisher item =>
      {| node := notify (node r) publisher item;
         in_loop := in_loop r; calls := calls r |}
  | DoStop => {| node := aq_stop (node r); in_loop := in_loop r; calls := calls r |}
  | DoTurn => run_turn r
  end.

Definition exec (r : Running) (schedule : list Step) : Running :=
  foldl step r schedule.

(** The items passed to [notify] in a schedule, in order. *)
Definition enqueued (schedule : list Step) : list Item :=
  omap (λ a, match a with DoNotify _ item => Some item | _ => None end) schedule.

(** The calls made when each of [items] is published in turn. *)
Definition published_calls (self : ActiveQueueNode) (items : list Item)
  : list (Call Item) :=
  mjoin (notify_all (aq_id self) (aq_publisher self) <$> items).

(** *** The loop of [run], one operation at a time *)

(** Where the node's thread is: about to test the stop flag; inside
    [queue.get(timeout=1.0)], which it enters when it has read the flag as
    unset and leaves with an item, or with [Empty] when the timeout has
    passed on an empty queue; or out of the loop. *)
Inductive Phase :=
| AtTest
| InGet
| Finished.

(** The node together with its thread, and the [notify] calls that the thread
    has made on the subscribers. *)
Record Worker := {
  w_node : ActiveQueueNode;
  phase : Phase;
  w_calls : list (Call Item)
}.

(** [Thread.start]: the thread enters [run]. *)
Definition spawn (self : ActiveQueueNode) : Worker :=
  {| w_node := self; phase := AtTest; w_calls := [] |}.

(** What the threads of the program do to the node, one operation at a time:
    a publisher's thread calls [notify], some thread calls [stop], and the
    node's own thread tests the stop flag or comes out of [get].  Between the
    test and the end of [get] the other threads can act. *)
Inductive Action :=
| ActNotify (publisher : ObjId) (item : Item)
| ActStop
| ActTest
| ActGet.

(** One operation.  An operation of the node's thread that is not the one it
    is about to make does nothing. *)
Definition act (w : Worker) (a : Action) : Worker :=
  match a with
  | ActNotify publisher item =>
      {| w_node := notify (w_node w) publisher item; phase := phase w;
         w_calls := w_calls w |}
  | ActStop =>
      {| w_node := aq_stop (w_node w); phase := phase w; w_calls := w_calls w |}
  | ActTest =>
      match phase w with
      | AtTest =>
          {| w_node := w_node w;
             phase := if stopped (w_node w) then Finished else InGet;
             w_calls := w_calls w |}
      | _ => w
      end
  | ActGet =>
      match phase w with
      | InGet =>
          match queue_get (w_node w) with
          | (Some item, self) =>
              {| w_node := self; phase := AtTest;
                 w_calls := w_calls w
                            ++ notify_all (aq_id self) (aq_publisher self) item |}
          | (None, self) =>
              {| w_node := self; phase := AtTest; w_calls := w_calls w |}
          end
      | _ => w
      end
  end.

Definition acts (w : Worker) (schedule : list Action) : Worker :=
  foldl act w schedule.

(** The items passed to [notify] in a schedule, in order. *)
Definition notified (schedule : list Action) : list Item :=
  omap (λ a, match a with ActNotify _ item => Some item | _ => None end)
       schedule.

(** In the schedule the node's thread comes out of [get] and later tests the
    stop flag. *)
Definition gets_then_tests (schedule : list Action) : Prop :=
  ∃ s1 s2 s3, schedule = s1 ++ ActGet :: s2 ++ ActTest :: s3.

End ActiveQueueNode.
Arguments ActiveQueueNode : clear implicits.
Arguments Running : clear implicits.
Arguments Step : clear implicits.
Arguments Worker : clear implicits.
Arguments Action : clear implicits.

(** *** The node of the examples *)

(** A queue node with one subscriber, fed by two publishers. *)
Definition queue_node : ActiveQueueNode nat :=
  aq_add_subscriber (ActiveQueueNode_init 1 "q") 9.

Definition two_publishers : list (Step nat) :=
  [DoNotify 5 10; DoTurn; DoNotify 6 20; DoNotify 5 30; DoTurn].

(** The node's thread has read the stop flag as unset and waits in [get];
    then [stop] is called, an item is put in the queue, the thread comes out
    of [get] and tests the flag. *)
Definition stop_during_get : list (Action nat) :=
  [ActTest; ActStop; ActNotify 5 10; ActGet; ActTest].

End Common.

(** * hydra_net *)
Module Net.
Import Core.

(** ** The header strategy *)

(** [BaseTcpHeader] and its subclasses: the header length and the overriding
    [get_message_size].  The method of the subclass is taken to return a
    size for whatever bytes it is given: the method of the base class, which
    raises [NotImplementedError], and a strategy that raises on some headers
    are not among the strategies here. *)
Record BaseTcpHeader := {
  header_length : Z;
  get_message_size : bytes → Z
}.

(** ** Sockets *)

(** What arrives on a connection, in order: a segment of data, a timeout
    period in which nothing arrives, the end of the stream (the peer closed)
    or a reset. *)
Inductive NetEvent :=
| Seg (data : bytes)
| Idle
| Fin
| Rst.

(** A stream socket.  A socket made by [socket.socket()] is not connected;
    [timeout] is [None] for a blocking socket. *)
Record Socket := {
  connected : bool;
  timeout : option nat;
  incoming : list NetEvent
}.

(** The listening socket of a server. *)
Record ServerSocket := {
  srv_timeout : option nat;
  srv_address : option (string * Z);
  srv_listening : bool
}.

(** The outcome of one [accept] or [connect] call, as the network decides
    it; a successful one carries what the peer will send. *)
Inductive Attempt :=
| Established (peer : list NetEvent)
| TimedOut
| Failed.

Inductive RecvResult :=
| RecvData (data : bytes)
| RecvTimeout
| RecvConnectionError
| RecvBlocked.

(** [recv(n)] on the events of a connection: at most [n] bytes of the first
    segment, [b''] at the end of the stream.  With a timeout an idle period
    raises [socket.timeout]; a blocking socket waits through it, for ever when
    nothing more arrives. *)
Fixpoint recv_events (blocking : bool) (n : nat) (evs : list NetEvent)
  : RecvResult * list NetEvent :=
  match evs with
  | [] => (if blocking then RecvBlocked else RecvTimeout, [])
  | Seg [] :: evs' => recv_events blocking n evs'
  | Seg data :: evs' =>
      (RecvData (take n data),
       match drop n data with
       | [] => evs'
       | rest => Seg rest :: evs'
       end)
  | Idle :: evs' =>
      if blocking then recv_events blocking n evs' else (RecvTimeout, evs')
  | Fin :: _ => (RecvData [], evs)
  | Rst :: _ => (RecvConnectionError, evs)
  end.

(** ** The node *)

(** What the node does that can be seen from outside. *)
Inductive Event :=
| EvSocket
| EvBindListen (ip_address : string) (port : Z)
| EvAccept (result : Attempt)
| EvConnect (ip_address : string) (port : Z) (result : Attempt)
| EvClose
| EvSend (data : bytes)
| EvNotify (call : Call bytes).

(** The attributes that [TcpSourceSink.__init__] sets and no method
    reassigns. *)
Record TcpSourceSink := {
  self_id : ObjId;
  node_name : string;
  ip_address : string;
  port : Z;
  is_server : bool;
  keep_header_data : bool;
  sock_timeout : nat;
  tcp_header : BaseTcpHeader;
  tcp_publisher : Publisher
}.

(** [TcpSourceSink.__init__]; [sock_timeout] is [1.0] second. *)
Definition TcpSourceSink_init (id : ObjId) (name ip_address : string) (port : Z)
    (tcp_header : option BaseTcpHeader) (is_server keep_header_data : bool)
  : exn + TcpSourceSink :=
  match tcp_header with
  | None => inl ValueError
  | Some h =>
      inr {| self_id := id; node_name := name; ip_address := ip_address;
             port := port; is_server := is_server;
             keep_header_data := keep_header_data; sock_timeout := 1;
             tcp_header := h; tcp_publisher := Publisher_init |}
  end.

(** The attributes that the methods reassign, [self.server_sock], [self.sock]
    and the stop flag, with the surroundings of the thread.

    The stop flag is set by another thread: [stop_clock = Some k] says that
    the thread reads the flag as unset [k] more times and as set from then on
    ([Some 0]: it is set); [None] that nobody ever sets it.  [accepts] and
    [connects] are the outcomes of the coming [accept] and [connect] calls;
    when they run out, every further call times out. *)
Record State := {
  server_sock : option ServerSocket;
  sock : option Socket;
  stop_clock : option nat;
  accepts : list Attempt;
  connects : list Attempt;
  trace : list Event
}.

(** The state that [__init__] leaves. *)
Definition State_init (stop_clock : option nat) (accepts connects : list Attempt)
  : State :=
  {| server_sock := None; sock := None; stop_clock := stop_clock;
     accepts := accepts; connects := connects; trace := [] |}.

Definition set_server_sock (v : option ServerSocket) (s : State) : State :=
  {| server_sock := v; sock := sock s; stop_clock := stop_clock s;
     accepts := accepts s; connects := connects s; trace := trace s |}.

Definition set_sock (v : option Socket) (s : State) : State :=
  {| server_sock := server_sock s; sock := v; stop_clock := stop_clock s;
     accepts := accepts s; connects := connects s; trace := trace s |}.

Definition set_stop_clock (v : option nat) (s : State) : State :=
  {| server_sock := server_sock s; sock := sock s; stop_clock := v;
     accepts := accepts s; connects := connects s; trace := trace s |}.

Definition set_accepts (v : list Attempt) (s : State) : State :=
  {| server_sock := server_sock s; sock := sock s; stop_clock := stop_clock s;
     accepts := v; connects := connects s; trace := trace s |}.

Definition set_connects (v : list Attempt) (s : State) : State :=
  {| server_sock := server_sock s; sock := sock s; stop_clock := stop_clock s;
     accepts := accepts s; connects := v; trace := trace s |}.

Definition emit (evs : list Event) (s : State) : State :=
  {| server_sock := server_sock s; sock := sock s; stop_clock := stop_clock s;
     accepts := accepts s; connects := connects s; trace := trace s ++ evs |}.

(** *** Methods as state transformers that may raise *)

Definition M (A : Type) : Type := State → Outcome State A.

Definition ret {A} (a : A) : M A := λ s, Return a s.

Definition bind {A B} (m : M A) (k : A → M B) : M B := λ s,
  match m s with
  | Return a s' => k a s'
  | Raise e s' => Raise e s'
  | Blocked s' => Blocked s'
  | OutOfFuel => OutOfFuel
  end.

Definition raise {A} (e : exn) : M A := λ s, Raise e s.

(** [try: m except ...: handler]: [handler e] is [None] when no [except]
    clause matches [e]. *)
Definition try_except {A} (m : M A) (handler : exn → option (M A)) : M A := λ s,
  match m s with
  | Raise e s' =>
      match handler e with
      | Some h => h s'
      | None => Raise e s'
      end
  | other => other
  end.

Declare Scope hydra_scope.
Delimit Scope hydra_scope with hydra.
Notation "x <- m ;; k" := (bind m (λ x, k))
  (at level 100, m at next level, k at level 200, right associativity,
   only parsing) : hydra_scope.
Notation "m ;; k" := (bind m (λ _, k))
  (at level 100, k at level 200, right associativity, only parsing)
  : hydra_scope.
Open Scope hydra_scope.

Definition modify (f : State → State) : M unit := λ s, Return tt (f s).

Definition get_state : M State := λ s, Return s s.

(** [self.stopped.is_set()]. *)
Definition is_set : M bool := λ s,
  match stop_clock s with
  | Some 0 => Return true s
  | Some (S k) => Return false (set_stop_clock (Some k) s)
  | None => Return false s
  end.

(** [Stoppable.stop]: [self.stopped.set()]. *)
Definition stop : M unit := modify (set_stop_clock (Some 0)).

(** An attribute access on [self.sock]: [AttributeError] when it is [None]. *)
Definition the_sock : M Socket := λ s,
  match sock s with
  | Some so => Return so s
  | None => Raise AttributeError s
  end.

Definition the_server_sock : M ServerSocket := λ s,
  match server_sock s with
  | Some so => Return so s
  | None => Raise AttributeError s
  end.

(** [self.sock.settimeout(t)]. *)
Definition sock_settimeout (t : option nat) : M unit :=
  so <- the_sock ;;
  modify (set_sock (Some {| connected := connected so; timeout := t;
                            incoming := incoming so |})).

(** A socket with no timeout blocks. *)
Definition is_blocking (so : Socket) : bool :=
  match timeout so with
  | None => true
  | Some _ => false
  end.

(** [self.sock.recv(n)]; [OSError] on a socket that is not connected. *)
Definition sock_recv (n : Z) : M bytes :=
  so <- the_sock ;;
  if connected so then
    match recv_events (is_blocking so) (Z.to_nat n) (incoming so) with
    | (res, evs) =>
        modify (set_sock (Some {| connected := true; timeout := timeout so;
                                  incoming := evs |})) ;;
        match res with
        | RecvData data => ret data
        | RecvTimeout => raise SocketTimeout
        | RecvConnectionError => raise ConnectionError
        | RecvBlocked => Blocked
        end
    end
  else raise OSError.

(** [self.sock.close()]. *)
Definition sock_close : M unit :=
  _ <- the_sock ;; modify (emit [EvClose]).

(** [self.sock.send(item)]; [OSError] on a socket that is not connected. *)
Definition sock_send (item : bytes) : M unit :=
  so <- the_sock ;;
  if connected so then modify (emit [EvSend item]) else raise OSError.

(** [Publisher.notify_all], inherited.  The [notify] calls are taken to
    return: a subscriber that raises is not among the subscribers here. *)
Definition publish (self : TcpSourceSink) (item : bytes) : M unit :=
  modify (emit (EvNotify <$> notify_all (self_id self) (tcp_publisher self) item)).

(** [self.server_sock.settimeout(t)]. *)
Definition server_settimeout (t : option nat) : M unit :=
  srv <- the_server_sock ;;
  modify (set_server_sock
            (Some {| srv_timeout := t; srv_address := srv_address srv;
                     srv_listening := srv_listening srv |})).

(** [self.server_sock.bind((self.ip_address, self.port))] and
    [self.server_sock.listen(1)], on an address that is free: both calls are
    taken to succeed. *)
Definition server_bind_listen (self : TcpSourceSink) : M unit :=
  srv <- the_server_sock ;;
  modify (set_server_sock
            (Some {| srv_timeout := srv_timeout srv;
                     srv_address := Some (ip_address self, port self);
                     srv_listening := true |})) ;;
  modify (emit [EvBindListen (ip_address self) (port self)]).

(** The next outcome that the network has for an [accept] or a [connect]. *)
Definition next_attempt (l : list Attempt) : Attempt * list Attempt :=
  match l with
  | [] => (TimedOut, [])
  | a :: l' => (a, l')
  end.

(** [self.sock, addr = self.server_sock.accept()]. *)
Definition accept : M unit :=
  _ <- the_server_sock ;;
  s <- get_state ;;
  let '(a, rest) := next_attempt (accepts s) in
  modify (set_accepts rest) ;;
  modify (emit [EvAccept a]) ;;
  match a with
  | Established peer =>
      modify (set_sock (Some {| connected := true; timeout := None;
                                incoming := peer |}))
  | TimedOut => raise SocketTimeout
  | Failed => raise OSError
  end.

(** [self.sock.connect((self.ip_address, self.port))]. *)
Definition connect (self : TcpSourceSink) : M unit :=
  so <- the_sock ;;
  s <- get_state ;;
  let '(a, rest) := next_attempt (connects s) in
  modify (set_connects rest) ;;
  modify (emit [EvConnect (ip_address self) (port self) a]) ;;
  match a with
  | Established peer =>
      modify (set_sock (Some {| connected := true; timeout := timeout so;
                                incoming := peer |}))
  | TimedOut => raise SocketTimeout
  | Failed => raise OSError
  end.

(** *** [TcpSourceSink.initialize] *)

(** The exceptions that the accept and connect loops swallow with [pass]. *)
Definition pass_on (oserror_too : bool) (e : exn) : option (M bool) :=
  match e with
  | SocketTimeout => Some (ret false)
  | OSError => if oserror_too then Some (ret false) else None
  | _ => None
  end.

(** [while not self.stopped.is_set(): try: accept; break; except ...: pass].
    The loop of [initialize] has handlers for [socket.timeout] and [OSError],
    the one of [run] for [socket.timeout] alone. *)
Fixpoint accept_loop (oserror_too : bool) (fuel : nat) : M unit :=
  match fuel with
  | 0 => λ _, OutOfFuel
  | S fuel' =>
      stopped <- is_set ;;
      if stopped then ret tt
      else
        done <- try_except (accept ;; ret true) (pass_on oserror_too) ;;
        if done then ret tt else accept_loop oserror_too fuel'
  end.

(** [while not self.stopped.is_set(): try: connect; break; except ...: pass]. *)
Fixpoint connect_loop (self : TcpSourceSink) (fuel : nat) : M unit :=
  match fuel with
  | 0 => λ _, OutOfFuel
  | S fuel' =>
      stopped <- is_set ;;
      if stopped then ret tt
      else
        done <- try_except (connect self ;; ret true) (pass_on true) ;;
        if done then ret tt else connect_loop self fuel'
  end.

Definition initialize (self : TcpSourceSink) (fuel : nat) : M unit :=
  if is_server self then
    modify (emit [EvSocket]) ;;
    modify (set_server_sock
              (Some {| srv_timeout := None; srv_address := None;
                       srv_listening := false |})) ;;
    server_settimeout (Some (sock_timeout self)) ;;
    server_bind_listen self ;;
    accept_loop true fuel
  else
    modify (emit [EvSocket]) ;;
    modify (set_sock (Some {| connected := false; timeout := None;
                              incoming := [] |})) ;;
    sock_settimeout (Some (sock_timeout self)) ;;
    connect_loop self fuel.

(** *** [TcpSourceSink.get_next_item] *)

(** The loop that reads the payload.  It ends with [inl b] when the method
    returns [b] from inside the loop, with [inr (bytes_read, data)] when the
    loop is left.  Every turn reads at least one byte, so [bytes_to_read]
    turns are enough: [fuel] starts there. *)
Fixpoint read_payload (fuel : nat) (bytes_to_read bytes_read : Z) (data : bytes)
  : M (bool + Z * bytes) :=
  if (bytes_read <? bytes_to_read)%Z then
    stopped <- is_set ;;
    if stopped then ret (inr (bytes_read, data))
    else
      match fuel with
      | 0 => λ _, OutOfFuel
      | S fuel' =>
          tmp_data <- sock_recv (bytes_to_read - bytes_read) ;;
          match tmp_data with
          | [] => sock_close ;; modify (set_sock None) ;; ret (inl false)
          | _ => read_payload fuel' bytes_to_read
                              (bytes_read + Z.of_nat (length tmp_data))
                              (data ++ tmp_data)
          end
      end
  else ret (inr (bytes_read, data)).

(** The part of the [try] block after the header has been read. *)
Definition after_header (self : TcpSourceSink) (header_bytes : bytes) : M bool :=
  let bytes_to_read := get_message_size (tcp_header self) header_bytes in
  sock_settimeout None ;;
  r <- read_payload (Z.to_nat bytes_to_read) bytes_to_read 0 [] ;;
  match r with
  | inl b => ret b
  | inr (bytes_read, data) =>
      (if bool_decide (bytes_read = bytes_to_read) then
         let data :=
           if (0 <? header_length (tcp_header self))%Z then
             if keep_header_data self then header_bytes ++ data else data
           else data in
         publish self data
       else ret tt) ;;
      sock_settimeout (Some (sock_timeout self)) ;;
      ret true
  end.

(** The [try] block. *)
Definition get_next_item_body (self : TcpSourceSink) : M bool :=
  sock_settimeout (Some (sock_timeout self)) ;;
  if (0 <? header_length (tcp_header self))%Z then
    header_bytes <- sock_recv (header_length (tcp_header self)) ;;
    match header_bytes with
    | [] => sock_close ;; modify (set_sock None) ;; ret false
    | _ => after_header self header_bytes
    end
  else after_header self [].

(** The [except] clauses. *)
Definition get_next_item_handler (e : exn) : option (M bool) :=
  match e with
  | SocketTimeout => Some (ret true)
  | ConnectionError => Some (sock_close ;; modify (set_sock None) ;; ret false)
  | _ => None
  end.

Definition get_next_item (self : TcpSourceSink) : M bool :=
  try_except (get_next_item_body self) get_next_item_handler.

(** *** [TcpSourceSink.run] *)

(** What [run] does when [get_next_item] has returned [False]. *)
Definition recover (self : TcpSourceSink) (fuel : nat) : M unit :=
  if negb (is_server self) then initialize self fuel
  else accept_loop false fuel.

Fixpoint run_loop (self : TcpSourceSink) (fuel : nat) : M unit :=
  match fuel with
  | 0 => λ _, OutOfFuel
  | S fuel' =>
      stopped <- is_set ;;
      if stopped then ret tt
      else
        ok <- get_next_item self ;;
        (if negb ok then recover self fuel' else ret tt) ;;
        run_loop self fuel'
  end.

Definition run (self : TcpSourceSink) (fuel : nat) : M unit :=
  initialize self fuel ;; run_loop self fuel.

(** *** [TcpSourceSink.notify] *)

Definition notify (self : TcpSourceSink) (publisher : ObjId) (item : bytes)
  : M unit :=
  s <- get_state ;;
  match sock s with
  | Some _ => sock_send item
  | None => ret tt
  end.

(** *** Streams, and the nodes of the examples *)

(** The bytes of a sequence of events in which the peer neither closes nor
    resets the connection. *)
Fixpoint stream (evs : list NetEvent) : option bytes :=
  match evs with
  | [] => Some []
  | Seg data :: evs' => app data <$> stream evs'
  | Idle :: evs' => stream evs'
  | Fin :: _ | Rst :: _ => None
  end.

(** The stop flag is read as unset the next [k] times at least. *)
Definition unset_for (k : nat) (clock : option nat) : Prop :=
  match clock with
  | Some c => k ≤ c
  | None => True
  end.

(** A header strategy with no header: the size is [n], whatever is passed. *)
Definition fixed_size (n : Z) : BaseTcpHeader :=
  {| header_length := 0; get_message_size := λ _, n |}.

(** The big-endian value of a sequence of bytes. *)
Definition be_value (bs : bytes) : Z :=
  fold_left (λ acc b, (acc * 256 + Z.of_N (Byte.to_N b))%Z) bs 0%Z.

(** A header strategy: two bytes, the size of the payload in big-endian. *)
Definition length_prefix : BaseTcpHeader :=
  {| header_length := 2; get_message_size := be_value |}.

(** A node used in the examples: [is_server] and [keep_header_data] as given,
    one subscriber. *)
Definition example_node (is_server keep_header_data : bool) : TcpSourceSink :=
  {| self_id := 1; node_name := "tcp"; ip_address := "127.0.0.1"; port := 5000;
     is_server := is_server; keep_header_data := keep_header_data;
     sock_timeout := 1; tcp_header := length_prefix;
     tcp_publisher := add_subscriber Publisher_init 9 |}.

(** *** Specifications of methods *)

(** [wp m Q E s]: run from [s], the method [m] ends in a state that satisfies
    [Q] when it returns and [E] when it raises or blocks ([E None]). *)
Definition wp {A} (m : M A) (Q : A → State → Prop)
    (E : option exn → State → Prop) (s : State) : Prop :=
  match m s with
  | Return a s' => Q a s'
  | Raise e s' => E (Some e) s'
  | Blocked s' => E None s'
  | OutOfFuel => True
  end.

(** From [s] to [s'] the listening socket has been left as it was and the
    events [t] have been added to the trace. *)
Definition added (s : State) (t : list Event) (s' : State) : Prop :=
  server_sock s' = server_sock s ∧ trace s' = trace s ++ t.

(** The connection is not closed in [t]. *)
Definition no_close (t : list Event) : Prop := EvClose ∉ t.

(** What may follow the closing of the connection: a client makes a new
    socket, a server accepts again, or has seen the stop flag set and does
    nothing more. *)
Definition follows_close (is_server : bool) (t : list Event) : Prop :=
  match t with
  | EvSocket :: _ => is_server = false
  | EvAccept _ :: _ => is_server = true
  | [] => is_server = true
  | _ => False
  end.

(** In the trace [t], every closing of the connection is followed as
    [follows_close] says. *)
Fixpoint recovered (is_server : bool) (t : list Event) : Prop :=
  match t with
  | [] => True
  | EvClose :: t' => follows_close is_server t' ∧ recovered is_server t'
  | _ :: t' => recovered is_server t'
  end.

(** The outcomes of a fetch step, or of a part of it, that started in [s]: it
    returns [False] having closed the connection and done nothing else that
    can be seen; or it returns [True], raises or blocks without having closed
    it, and when it raises [ConnectionError] it has done nothing that can be
    seen and holds the socket still. *)
Definition fetch_returns (s : State) (ok : bool) (s' : State) : Prop :=
  if ok then ∃ t, added s t s' ∧ no_close t else added s [EvClose] s'.

Definition fetch_raises (s : State) (oe : option exn) (s' : State) : Prop :=
  (∃ t, added s t s' ∧ no_close t)
  ∧ (oe = Some ConnectionError → added s [] s' ∧ is_Some (sock s')).

(** The events of [t] are [accept] calls. *)
Definition accepts_only (t : list Event) : Prop :=
  ∀ e, e ∈ t → ∃ a, e = EvAccept a.

(** The listening socket that [initialize] leaves to a server. *)
Definition listening_socket (self : TcpSourceSink) : ServerSocket :=
  {| srv_timeout := Some (sock_timeout self);
     srv_address := Some (ip_address self, port self);
     srv_listening := true |}.

(** What [run] has done when it ends, started from [s]: each closing of the
    connection was followed by the recovery of the node's role, and a server
    holds the listening socket that it made at the start. *)
Definition run_recovered (self : TcpSourceSink) (s s' : State) : Prop :=
  (∃ t, trace s' = trace s ++ t ∧ recovered (is_server self) t)
  ∧ (is_server self = true → server_sock s' = Some (listening_socket self)).

(** A client's surroundings: the peer of the first connection sends one
    message and closes, the next attempt to connect times out, the one after
    it succeeds, and the stop flag is set when the thread has read it eight
    times. *)
Definition reconnect_scenario : State :=
  State_init (Some 8) []
    [Established [Seg [x00; x01; xaa]; Fin]; TimedOut; Established [Idle]].

(** A server's surroundings: the first client sends one message and resets
    the connection, then an [accept] times out and the next one fails. *)
Definition accept_error_scenario : State :=
  State_init (Some 9)
    [Established [Seg [x00; x01; xaa]; Rst]; TimedOut; Failed; Established [Idle]]
    [].

(** A server's surroundings: the first [accept] fails, the next one brings a
    client that sends nothing, and the stop flag is set when the thread has
    read it three times. *)
Definition accept_error_at_start : State :=
  State_init (Some 3) [Failed; Established [Idle]] [].

(** Nobody answers, and the stop flag is set when the thread has read it
    twice. *)
Definition unreachable_peer : State := State_init (Some 2) [] [].

(** *** Messages on the wire *)

(** A message as it is sent: its header and its payload. *)
Definition Message : Type := bytes * bytes.

(** The header has the length that the strategy of [self] sets, and the
    strategy finds in it the size of the payload. *)
Definition well_framed (self : TcpSourceSink) (m : Message) : Prop :=
  Z.of_nat (length m.1) = header_length (tcp_header self)
  ∧ get_message_size (tcp_header self) m.1 = Z.of_nat (length m.2).

(** The bytes of a sequence of messages sent back to back. *)
Definition wire (msgs : list Message) : bytes :=
  mjoin ((λ m, m.1 ++ m.2) <$> msgs).

(** The events of a connection on which [data] has arrived in one segment,
    ahead of [evs]. *)
Definition pending (data : bytes) (evs : list NetEvent) : list NetEvent :=
  match data with
  | [] => evs
  | _ => Seg data :: evs
  end.

(** The item that the node makes of a message, and the [notify] calls of the
    publication of an item. *)
Definition item_of_message (self : TcpSourceSink) (m : Message) : bytes :=
  if keep_header_data self then m.1 ++ m.2 else m.2.

Definition publication (self : TcpSourceSink) (item : bytes) : list Event :=
  EvNotify <$> notify_all (self_id self) (tcp_publisher self) item.

(** The number of times that the thread reads the stop flag while it takes
    messages that have arrived whole: once in [run] before each fetch step,
    and once more in the payload loop when the payload is not empty. *)
Fixpoint flag_reads (msgs : list Message) : nat :=
  match msgs with
  | [] => 0
  | m :: msgs' =>
      match m.2 with
      | [] => 1 + flag_reads msgs'
      | _ => 2 + flag_reads msgs'
      end
  end.

(** Three messages for the strategy [length_prefix]; the second has no
    payload. *)
Definition three_messages : list Message :=
  [([x00; x01], [xaa]); ([x00; x00], []); ([x00; x02], [xbb; xaa])].

(** A header strategy: two bytes that hold, in big-endian, the length of the
    whole message, header included. *)
Definition inclusive_prefix : BaseTcpHeader :=
  {| header_length := 2; get_message_size := λ hb, (be_value hb - 2)%Z |}.

End Net.

(** * The thread of a source *)

(** [Source.run] and [Stoppable.stop] of [hydra_core.py], for whatever
    [initialize] and [get_next_item] a subclass gives. *)
Module Thread.
Import Core.

(** The state of a source: the stop flag, as the thread will read it
    ([Some k]: unset [k] more times and set from then on; [None]: nobody ever
    sets it), and the attributes [X] of the subclass with its surroundings. *)
Record State (X : Type) := {
  stop_clock : option nat;
  attrs : X
}.
Arguments stop_clock {X} _.
Arguments attrs {X} _.

Definition M (X A : Type) : Type := State X → Outcome (State X) A.

Definition ret {X A} (a : A) : M X A := λ s, Return a s.

Definition bind {X A B} (m : M X A) (k : A → M X B) : M X B := λ s,
  match m s with
  | Return a s' => k a s'
  | Raise e s' => Raise e s'
  | Blocked s' => Blocked s'
  | OutOfFuel => OutOfFuel
  end.

Definition raise {X A} (e : exn) : M X A := λ s, Raise e s.

(** [try: m except ...: handler]: [handler e] is [None] when no [except]
    clause matches [e]. *)
Definition try_except {X A} (m : M X A) (handler : exn → option (M X A))
  : M X A := λ s,
  match m s with
  | Raise e s' =>
      match handler e with
      | Some h => h s'
      | None => Raise e s'
      end
  | other => other
  end.

Declare Scope thread_scope.
Delimit Scope thread_scope with thread.
Notation "x <- m ;; k" := (bind m (λ x, k))
  (at level 100, m at next level, k at level 200, right associativity,
   only parsing) : thread_scope.
Notation "m ;; k" := (bind m (λ _, k))
  (at level 100, k at level 200, right associativity, only parsing)
  : thread_scope.
Open Scope thread_scope.

Definition modify {X} (f : X → X) : M X unit := λ s,
  Return tt {| stop_clock := stop_clock s; attrs := f (attrs s) |}.

Definition get {X} : M X X := λ s, Return (attrs s) s.

(** [self.stopped.is_set()]. *)
Definition is_set {X} : M X bool := λ s,
  match stop_clock s with
  | Some 0 => Return true s
  | Some (S k) => Return false {| stop_clock := Some k; attrs := attrs s |}
  | None => Return false s
  end.

(** [Stoppable.stop]: [self.stopped.set()]. *)
Definition stop {X} : M X unit := λ s,
  Return tt {| stop_clock := Some 0; attrs := attrs s |}.

(** The loop of [Source.run]: [while not self.stopped.is_set(): if not
    self.get_next_item(): break]. *)
Fixpoint run_loop {X} (get_next_item : M X bool) (fuel : nat) : M X unit :=
  match fuel with
  | 0 => λ _, OutOfFuel
  | S fuel' =>
      stopped <- is_set ;;
      if stopped then ret tt
      else
        ok <- get_next_item ;;
        if negb ok then ret tt else run_loop get_next_item fuel'
  end.

(** [Source.run]. *)
Definition run {X} (initialize : M X unit) (get_next_item : M X bool)
    (fuel : nat) : M X unit :=
  initialize ;; run_loop get_next_item fuel.


(** The stop flag is read as unset the next [k] times at least. *)
Definition unset_for (k : nat) (clock : option nat) : Prop :=
  match clock with
  | Some c => k ≤ c
  | None => True
  end.

End Thread.

(** * hydra_net: the UDP node *)
Module Udp.
Import Core Thread.

(** What comes to the socket in one timeout period: a datagram, or
    nothing. *)
Inductive UdpEvent :=
| Datagram (data : bytes)
| Quiet.

(** A datagram socket: the address it is bound to, and its timeout. *)
Record Socket := {
  bound : option (string * Z);
  timeout : option nat
}.

Inductive RecvResult :=
| RecvData (data : bytes)
| RecvTimeout
| RecvBlocked.

(** [recv(n)] on a datagram socket: the first [n] bytes of the next
    datagram, the others are lost.  With a timeout a quiet period raises
    [socket.timeout]. *)
Fixpoint recv_datagram (blocking : bool) (n : nat) (evs : list UdpEvent)
  : RecvResult * list UdpEvent :=
  match evs with
  | [] => (if blocking then RecvBlocked else RecvTimeout, [])
  | Datagram data :: evs' => (RecvData (take n data), evs')
  | Quiet :: evs' =>
      if blocking then recv_datagram blocking n evs' else (RecvTimeout, evs')
  end.

(** What the node does that can be seen from outside. *)
Inductive Event :=
| EvSocket
| EvBind (ip_address : string) (port : Z)
| EvClose
| EvSendTo (data : bytes) (ip_address : string) (port : Z)
| EvNotify (call : Call bytes).

(** The attributes that [UdpSourceSink.__init__] sets. *)
Record UdpSourceSink := {
  self_id : ObjId;
  node_name : string;
  buffer_size : Z;
  listen_ip_address : option string;
  listening_port : Z;
  send_to_ip : option string;
  send_to_port : Z;
  udp_publisher : Publisher
}.


(** The attribute [self.sock], which [__init__] does not set: [None] when the
    object has no such attribute, [Some None] when it is [None]; with what
    will come to the socket, and what the node has done. *)
Record Attrs := {
  sock : option (option Socket);
  arrivals : list UdpEvent;
  trace : list Event
}.

(** The state that [__init__] leaves. *)
Definition State_init (stop_clock : option nat) (arrivals : list UdpEvent)
  : State Attrs :=
  {| stop_clock := stop_clock;
     attrs := {| sock := None; arrivals := arrivals; trace := [] |} |}.

Definition set_sock (v : option (option Socket)) (a : Attrs) : Attrs :=
  {| sock := v; arrivals := arrivals a; trace := trace a |}.

Definition set_arrivals (v : list UdpEvent) (a : Attrs) : Attrs :=
  {| sock := sock a; arrivals := v; trace := trace a |}.

Definition emit (evs : list Event) (a : Attrs) : Attrs :=
  {| sock := sock a; arrivals := arrivals a; trace := trace a ++ evs |}.

(** A method call on [self.sock]: [AttributeError] when the attribute is not
    there or is [None]. *)
Definition the_sock : M Attrs Socket :=
  a <- get ;;
  match sock a with
  | Some (Some so) => ret so
  | _ => raise AttributeError
  end.

(** [self.sock.settimeout(t)]. *)
Definition sock_settimeout (t : option nat) : M Attrs unit :=
  so <- the_sock ;;
  modify (set_sock (Some (Some {| bound := bound so; timeout := t |}))).

(** [self.sock.bind((ip, port))]. *)
Definition sock_bind (ip : string) (port : Z) : M Attrs unit :=
  so <- the_sock ;;
  modify (set_sock (Some (Some {| bound := Some (ip, port);
                                  timeout := timeout so |}))) ;;
  modify (emit [EvBind ip port]).

Definition is_blocking (so : Socket) : bool :=
  match timeout so with
  | None => true
  | Some _ => false
  end.

(** [self.sock.recv(n)]; [ValueError] for a size below 0.  A read of no
    byte returns [b''] at once: it waits for nothing and takes nothing of
    what has come in. *)
Definition sock_recv (n : Z) : M Attrs bytes :=
  so <- the_sock ;;
  if (n <? 0)%Z then raise ValueError
  else if (n =? 0)%Z then ret []
  else
    a <- get ;;
    match recv_datagram (is_blocking so) (Z.to_nat n) (arrivals a) with
    | (res, evs) =>
        modify (set_arrivals evs) ;;
        match res with
        | RecvData data => ret data
        | RecvTimeout => raise SocketTimeout
        | RecvBlocked => Blocked
        end
    end.

(** [self.sock.close()]. *)
Definition sock_close : M Attrs unit :=
  _ <- the_sock ;; modify (emit [EvClose]).

(** The [notify] calls of the publication of an item. *)
Definition publication (self : UdpSourceSink) (item : bytes) : list Event :=
  EvNotify <$> notify_all (self_id self) (udp_publisher self) item.

(** [Publisher.notify_all], inherited. *)
Definition publish (self : UdpSourceSink) (item : bytes) : M Attrs unit :=
  modify (emit (publication self item)).

(** [UdpSourceSink.initialize]; the timeout is [1.0] second. *)
Definition initialize (self : UdpSourceSink) : M Attrs unit :=
  modify (emit [EvSocket]) ;;
  modify (set_sock (Some (Some {| bound := None; timeout := None |}))) ;;
  sock_settimeout (Some 1) ;;
  match listen_ip_address self with
  | Some ip => sock_bind ip (listening_port self)
  | None => ret tt
  end.

(** [UdpSourceSink.get_next_item]. *)
Definition get_next_item (self : UdpSourceSink) : M Attrs bool :=
  try_except
    (data <- sock_recv (buffer_size self) ;;
     match data with
     | [] => sock_close ;; modify (set_sock (Some None)) ;; ret false
     | _ => publish self data ;; ret true
     end)
    (λ e, match e with
          | SocketTimeout => Some (ret true)
          | _ => None
          end).

(** [Source.run], inherited. *)
Definition run (self : UdpSourceSink) (fuel : nat) : M Attrs unit :=
  Thread.run (initialize self) (get_next_item self) fuel.

(** [UdpSourceSink.notify]. *)
Definition notify (self : UdpSourceSink) (publisher : ObjId) (item : bytes)
  : M Attrs unit :=
  match send_to_ip self with
  | Some ip =>
      a <- get ;;
      match sock a with
      | None => raise AttributeError
      | Some None => ret tt
      | Some (Some _) => modify (emit [EvSendTo item ip (send_to_port self)])
      end
  | None => ret tt
  end.

(** *** What the node makes of what comes in *)







End Udp.

(** * hydra_rest *)
Module Rest.
Import Core Thread.

Section RestService.
Context {Item : Type}.

(** What the node does that can be seen from outside: it starts the thread
    of the web server, and it notifies its subscribers. *)
Inductive Event :=
| EvServe (host : string) (port : Z)
| EvNotify (call : Call Item).

(** The attributes that [RestService.__init__] sets and no method
    reassigns. *)
Record RestService := {
  self_id : ObjId;
  node_name : string;
  host : string;
  port : Z;
  rest_publisher : Publisher
}.

(** [RestService.__init__]. *)
Definition RestService_init (id : ObjId) (name host : string) (port : Z)
  : RestService :=
  {| self_id := id; node_name := name; host := host; port := port;
     rest_publisher := Publisher_init |}.

(** The queue [self.q], first in, first out, and what the node has done. *)
Record Attrs := {
  q : list Item;
  trace : list Event
}.

(** The state that [__init__] leaves: the queue is empty. *)
Definition State_init (stop_clock : option nat) : State Attrs :=
  {| stop_clock := stop_clock; attrs := {| q := []; trace := [] |} |}.

Definition emit (evs : list Event) (a : Attrs) : Attrs :=
  {| q := q a; trace := trace a ++ evs |}.

(** [self.q.get(timeout=1.0)]: the head of the queue, or [None] for the
    [Empty] exception when the wait times out on an empty queue. *)
Definition q_get : M Attrs (option Item) := λ s,
  match q (attrs s) with
  | [] => Return None s
  | item :: rest =>
      Return (Some item)
             {| stop_clock := stop_clock s;
                attrs := {| q := rest; trace := trace (attrs s) |} |}
  end.

(** The [notify] calls of the publication of an item. *)
Definition publication (self : RestService) (item : Item) : list Event :=
  EvNotify <$> notify_all (self_id self) (rest_publisher self) item.

(** [RestService.initialize]: the server runs in a daemon thread of its
    own. *)
Definition initialize (self : RestService) : M Attrs unit :=
  modify (emit [EvServe (host self) (port self)]).

(** [RestService.get_next_item]. *)
Definition get_next_item (self : RestService) : M Attrs bool :=
  item <- q_get ;;
  match item with
  | Some item => modify (emit (publication self item))
  | None => ret tt
  end ;;
  ret true.

(** [RestService.stop]: the method of the superclass. *)
Definition stop : M Attrs unit := Thread.stop.

(** [Source.run], inherited. *)
Definition run (self : RestService) (fuel : nat) : M Attrs unit :=
  Thread.run (initialize self) (get_next_item self) fuel.

End RestService.
Arguments Event : clear implicits.
Arguments RestService : clear implicits.
Arguments Attrs : clear implicits.

End Rest.

(** * The nodes that pass items on *)

(** [IntermediateNode], [Filter], [Transformation], [Sink] and [Subscriber] of
    [hydra_core.py] and [LoggerNode] of [hydra_common.py]: a publisher calls
    [notify] on each of its subscribers, and the class of the subscriber
    decides what the call does. *)
Module Flow.
Import Core.

Section Flow.
Context {Item : Type}.

(** An item is a Python value: [None] is [None], [Some v] another object.

    The class of a node, with the methods that a subclass overrides:
    [check] of a [Filter] (the base class has [λ _, true]), [transform] of a
    [Transformation] (the base class has the identity), [to_string] of a
    [LoggerNode].  A [Source] is a publisher and no subscriber: it has no
    [notify].  A [Sink], like a bare [Subscriber], has the [notify] of
    [Subscriber]. *)
Inductive NodeClass :=
| SourceClass
| SinkClass
| IntermediateNodeClass
| FilterClass (check : option Item → bool)
| TransformationClass (transform : option Item → option Item)
| LoggerNodeClass (level : Z) (to_string : option Item → string).

(** A node object: its name, its class and, for a publisher, its
    subscribers. *)
Record Obj := {
  obj_name : string;
  obj_class : NodeClass;
  obj_subscribers : gset ObjId
}.

(** The objects of the program, by identity. *)
Definition Heap : Type := ObjId → Obj.

(** One call [logger.log(level, message)] on the logger of a name. *)
Record LogRecord := {
  logger : string;
  log_level : Z;
  message : string
}.

(** [for subscriber in subscribers: body(subscriber)]: an exception ends the
    loop. *)
Fixpoint for_each (subscribers : list ObjId)
    (body : ObjId → list LogRecord → Outcome (list LogRecord) unit)
    (log : list LogRecord) : Outcome (list LogRecord) unit :=
  match subscribers with
  | [] => Return tt log
  | subscriber :: subscribers' =>
      match body subscriber log with
      | Return _ log' => for_each subscribers' body log'
      | other => other
      end
  end.

(** [self.notify(publisher, item)], by the class of [self].  The calls nest:
    [fuel] bounds the depth of the nesting. *)
Fixpoint notify (fuel : nat) (heap : Heap) (self publisher : ObjId)
    (item : option Item) (log : list LogRecord)
  : Outcome (list LogRecord) unit :=
  match fuel with
  | 0 => OutOfFuel
  | S fuel' =>
      let notify_all item log :=
        for_each (elements (obj_subscribers (heap self)))
                 (λ subscriber, notify fuel' heap subscriber self item) log in
      match obj_class (heap self) with
      | SourceClass => Raise AttributeError log
      | SinkClass => Raise NotImplementedError log
      | IntermediateNodeClass => notify_all item log
      | FilterClass check =>
          if check item then notify_all item log else Return tt log
      | TransformationClass transform =>
          let transformed_item := transform item in
          match transformed_item with
          | Some _ => notify_all transformed_item log
          | None => Return tt log
          end
      | LoggerNodeClass level to_string =>
          Return tt
            (log ++ [{| logger := obj_name (heap self); log_level := level;
                        message := "From " +:+ obj_name (heap publisher)
                                   +:+ ": " +:+ to_string item |}])
      end
  end.

(** [Publisher.notify_all], called on the publisher [self]. *)
Definition notify_all (fuel : nat) (heap : Heap) (self : ObjId)
    (item : option Item) (log : list LogRecord)
  : Outcome (list LogRecord) unit :=
  for_each (elements (obj_subscribers (heap self)))
           (λ subscriber, notify fuel heap subscriber self item) log.

(** [for item in items: self.notify_all(item)]. *)
Fixpoint notify_all_items (fuel : nat) (heap : Heap) (self : ObjId)
    (items : list (option Item)) (log : list LogRecord)
  : Outcome (list LogRecord) unit :=
  match items with
  | [] => Return tt log
  | item :: items' =>
      match notify_all fuel heap self item log with
      | Return _ log' => notify_all_items fuel heap self items' log'
      | other => other
      end
  end.

(** *** A pipeline *)

(** A source (object 1) to which a filter (2) subscribes, to which a
    transformation (3) subscribes, to which a logger (4) subscribes. *)
Definition pipeline (source_name filter_name transformation_name
                     logger_name : string)
    (check : option Item → bool) (transform : option Item → option Item)
    (level : Z) (to_string : option Item → string) : Heap := λ id,
  match id with
  | 1 => {| obj_name := source_name; obj_class := SourceClass;
            obj_subscribers := {[2]} |}
  | 2 => {| obj_name := filter_name; obj_class := FilterClass check;
            obj_subscribers := {[3]} |}
  | 3 => {| obj_name := transformation_name;
            obj_class := TransformationClass transform;
            obj_subscribers := {[4]} |}
  | _ => {| obj_name := logger_name;
            obj_class := LoggerNodeClass level to_string;
            obj_subscribers := ∅ |}
  end.

(** What the logger of the pipeline logs for an item. *)
Definition logged (transformation_name logger_name : string)
    (check : option Item → bool) (transform : option Item → option Item)
    (level : Z) (to_string : option Item → string) (item : option Item)
  : list LogRecord :=
  if check item then
    match transform item with
    | Some v => [{| logger := logger_name; log_level := level;
                    message := "From " +:+ transformation_name
                               +:+ ": " +:+ to_string (Some v) |}]
    | None => []
    end
  else [].

(** The call does not return. *)
Definition no_return (o : Outcome (list LogRecord) unit) : Prop :=
  match o with
  | Return _ _ => False
  | _ => True
  end.

End Flow.
Arguments NodeClass : clear implicits.
Arguments Obj : clear implicits.
Arguments Heap : clear implicits.

(** *** The heaps of the examples *)

(** A source (1) with two subscribers: a logger (2) and a sink (3) of a
    class that does not override [notify]. *)
Definition heap_with_plain_sink : Heap nat := λ id,
  match id with
  | 1 => {| obj_name := "src"; obj_class := SourceClass;
            obj_subscribers := {[2; 3]} |}
  | 2 => {| obj_name := "log";
            obj_class := LoggerNodeClass 20 (λ _, "item"%string);
            obj_subscribers := ∅ |}
  | _ => {| obj_name := "sink"; obj_class := SinkClass;
            obj_subscribers := ∅ |}
  end.

(** An intermediate node (1) that is its own subscriber. *)
Definition heap_with_loop : Heap nat := λ id,
  {| obj_name := "n"; obj_class := IntermediateNodeClass;
     obj_subscribers := {[1]} |}.

End Flow.

(** * example.py: the header strategy *)
Module Example.
Import Core Net.

(** [struct.unpack('>HB', b)]: an unsigned integer of two bytes and one of
    one byte, big-endian; [None] stands for the [struct.error] that is raised
    when [b] is not three bytes long. *)
Definition unpack_HB (b : bytes) : option (Z * Z) :=
  match b with
  | [b0; b1; b2] => Some (be_value [b0; b1], be_value [b2])
  | _ => None
  end.

(** [MyTcpHeader.__init__]: [BaseTcpHeader.__init__(self, 3)]. *)
Definition MyTcpHeader_header_length : Z := 3.

(** [MyTcpHeader.get_message_size]. *)
Definition MyTcpHeader_get_message_size (header_bytes : bytes) : option Z :=
  match unpack_HB header_bytes with
  | Some (seq_no, length) => Some length
  | None => None
  end.

End Example.

(** * Properties of hydra_core *)
Module CoreProps.
Import Core.

(** ** Publisher *)

Lemma subscribers_foldl (p : Publisher) (subs : list ObjId) :
  subscribers (foldl add_subscriber p subs) = list_to_set subs ∪ subscribers p.
Proof.
  revert p. induction subs as [|s subs IH]; intros p; simpl.
  - set_solver.
  - rewrite IH. unfold add_subscriber; simpl. set_solver.
Qed.

Lemma subscribers_after (subs : list ObjId) :
  subscribers (foldl add_subscriber Publisher_init subs) = list_to_set subs.
Proof. rewrite subscribers_foldl. unfold Publisher_init; simpl. set_solver. Qed.

(** The calls a list of subscribers receives, counted per subscriber. *)
Lemma calls_to_absent {Item} (f : ObjId → Call Item) (l : list ObjId) (s : ObjId) :
  (∀ x, callee (f x) = x) → s ∉ l →
  filter (λ c, callee c = s) (f <$> l) = [].
Proof.
  intros Hf. induction l as [|x l IH]; intros Hs; [done|].
  rewrite fmap_cons, filter_cons_False.
  - apply IH. intros ?. apply Hs. by right.
  - rewrite Hf. intros ->. apply Hs. by left.
Qed.

Lemma calls_to_member {Item} (f : ObjId → Call Item) (l : list ObjId) (s : ObjId) :
  (∀ x, callee (f x) = x) → NoDup l → s ∈ l →
  filter (λ c, callee c = s) (f <$> l) = [f s].
Proof.
  intros Hf. induction 1 as [|x l Hx Hl IH]; intros Hs.
  - by apply elem_of_nil in Hs.
  - rewrite fmap_cons. destruct (decide (x = s)) as [->|Hne].
    + rewrite filter_cons_True by apply Hf.
      by rewrite calls_to_absent.
    + rewrite filter_cons_False by (rewrite Hf; done).
      apply IH. apply elem_of_cons in Hs as [->|Hs]; done.
Qed.

(** C6.  After any sequence of [add_subscriber] calls, one [notify_all(item)]
    calls [notify] exactly once on each registered subscriber, with the
    publisher and that item, and calls nobody else: the number of calls is the
    number of distinct subscribers. *)
Theorem notify_all_once_per_subscriber {Item} (self_id : ObjId)
    (subs : list ObjId) (item : Item) :
  let p := foldl add_subscriber Publisher_init subs in
  let calls := notify_all self_id p item in
  (∀ s, s ∈ subs →
        filter (λ c, callee c = s) calls = [Notify s self_id item])
  ∧ (∀ c, c ∈ calls →
          callee c ∈ subs ∧ publisher c = self_id ∧ item_of c = item)
  ∧ length calls = length (remove_dups subs).
Proof.
  intros p calls. subst p calls. unfold notify_all.
  rewrite subscribers_after. split; [|split].
  - intros s Hs.
    apply (calls_to_member (λ x, Notify x self_id item)); [done| |].
    + apply NoDup_elements.
    + apply elem_of_elements, elem_of_list_to_set, Hs.
  - intros c Hc. apply list_elem_of_fmap in Hc as (x & -> & Hx).
    apply elem_of_elements, elem_of_list_to_set in Hx. done.
  - rewrite length_fmap.
    apply Permutation_length, NoDup_Permutation.
    + apply NoDup_elements.
    + apply NoDup_remove_dups.
    + intros x. by rewrite elem_of_elements, elem_of_list_to_set, elem_of_remove_dups.
Qed.

(** Adding a subscriber that is registered already changes nothing. *)
Lemma add_subscriber_idempotent (p : Publisher) (s : ObjId) :
  add_subscriber (add_subscriber p s) s = add_subscriber p s.
Proof. unfold add_subscriber; simpl. f_equal. set_solver. Qed.

Lemma notify_all_once_per_subscriber_example :
  let p := foldl add_subscriber Publisher_init [7; 3; 7; 3; 3] in
  filter (λ c, callee c = 7) (notify_all 1 p "x"%string) = [Notify 7 1 "x"%string]
  ∧ length (notify_all 1 p "x"%string) = 2.
Proof.
  pose proof (notify_all_once_per_subscriber 1 [7; 3; 7; 3; 3] "x"%string)
    as (H1 & _ & H3).
  split; [apply H1; set_solver | exact H3].
Defined.

(** ** Graph *)

Lemma has_node_with_name_true (g : Graph) (node_name : string) :
  has_node_with_name g node_name = true
  ↔ ∃ n, n ∈ nodes g ∧ name n = node_name.
Proof.
  unfold has_node_with_name. rewrite existsb_exists. split.
  - intros (n & Hin & Hn). exists n. split.
    + by apply elem_of_elements, list_elem_of_In.
    + by apply bool_decide_eq_true in Hn.
  - intros (n & Hin & Hn). exists n. split.
    + by apply list_elem_of_In, elem_of_elements.
    + by apply bool_decide_eq_true.
Qed.

Lemma has_node_with_name_false (g : Graph) (node_name : string) :
  has_node_with_name g node_name = false
  ↔ ∀ n, n ∈ nodes g → name n ≠ node_name.
Proof.
  rewrite <- not_true_iff_false, has_node_with_name_true. split.
  - intros Hno n Hin Hn. apply Hno. by exists n.
  - intros Hall (n & Hin & Hn). by apply (Hall n).
Qed.

Lemma add_duplicate_or_register_lemma (g : Graph) (node : Node) :
  ((∃ n, n ∈ nodes g ∧ name n = name node) →
   add g node = Raise (DuplicateNodeNameError node (graph_name g)) g)
  ∧ ((∀ n, n ∈ nodes g → name n ≠ name node) →
     add g node =
     Return tt {| graph_name := graph_name g;
                  nodes := {[node]} ∪ nodes g;
                  executable_nodes :=
                    if is_thread node then executable_nodes g ++ [node]
                    else executable_nodes g |}).
Proof.
  split; intros H; unfold add.
  - apply has_node_with_name_true in H. by rewrite H.
  - apply has_node_with_name_false in H. rewrite H. simpl.
    by destruct (is_thread node).
Qed.

(** C5.  [add] on a graph that has a node of the same name raises the
    duplicate-name error and leaves the graph as it was; on a graph that has
    none, it puts the node in the node set and, when the node is a thread, at
    the end of the executable sequence. *)
Theorem add_duplicate_or_register (g : Graph) (node : Node) :
  ((∃ n, n ∈ nodes g ∧ name n = name node) →
   add g node = Raise (DuplicateNodeNameError node (graph_name g)) g)
  ∧ ((∀ n, n ∈ nodes g → name n ≠ name node) →
     add g node =
     Return tt {| graph_name := graph_name g;
                  nodes := {[node]} ∪ nodes g;
                  executable_nodes :=
                    if is_thread node then executable_nodes g ++ [node]
                    else executable_nodes g |}).
Proof. apply add_duplicate_or_register_lemma. Qed.

Lemma add_duplicate_or_register_example :
  add graph_a other_a = Raise (DuplicateNodeNameError other_a "g") graph_a
  ∧ add graph_a source_b =
    Return tt {| graph_name := "g"; nodes := {[source_b]} ∪ {[source_a]};
                 executable_nodes := [source_a; source_b] |}.
Proof.
  split.
  - apply (proj1 (add_duplicate_or_register graph_a other_a)).
    exists source_a. split; [|reflexivity].
    unfold graph_a; simpl. by apply elem_of_singleton.
  - apply (proj2 (add_duplicate_or_register graph_a source_b)).
    intros n Hn. unfold graph_a in Hn; simpl in Hn.
    apply elem_of_singleton in Hn. subst n. discriminate.
Defined.

Lemma Graph_init_executable_in_nodes (name : string) :
  executable_in_nodes (Graph_init name).
Proof. intros n Hn. by apply elem_of_nil in Hn. Qed.

Lemma add_executable_in_nodes (g g' : Graph) (node : Node) :
  executable_in_nodes g → add g node = Return tt g' → executable_in_nodes g'.
Proof.
  intros Hinv. unfold add.
  destruct (has_node_with_name g (name node)); simpl; [done|].
  destruct (is_thread node); intros [= <-]; intros n; simpl.
  - rewrite elem_of_app, list_elem_of_singleton. intros [Hn| ->].
    + apply elem_of_union_r, Hinv, Hn.
    + by apply elem_of_union_l, elem_of_singleton.
  - intros Hn. apply elem_of_union_r, Hinv, Hn.
Qed.

Lemma clear_executable_in_nodes (g : Graph) : executable_in_nodes (clear g).
Proof. intros n Hn. by apply elem_of_nil in Hn. Qed.

(** [remove] of a node of the graph: the new thread object of the test
    [node is threading.Thread()] is not [node], so the executable sequence is
    left alone and only the node set shrinks. *)
Lemma remove_keeps_executable_nodes (fresh : ObjId) (g : Graph) (node : Node) :
  fresh ≠ node_id node → node ∈ nodes g →
  remove fresh g node =
  Return tt {| graph_name := graph_name g;
               nodes := nodes g ∖ {[node]};
               executable_nodes := executable_nodes g |}.
Proof.
  intros Hfresh Hin. unfold remove.
  rewrite decide_True by done.
  by rewrite bool_decide_eq_false_2 by done.
Qed.

(** C9.  A graph to which the thread-owning node [source_a] is added and from
    which it is then removed: [remove] takes it out of the node set and leaves
    it in the executable sequence, so the executable nodes are no longer all
    nodes of the graph. *)
Theorem remove_leaves_thread_in_executable_nodes :
  ∃ g1 g2,
    add (Graph_init "g") source_a = Return tt g1
    ∧ executable_in_nodes g1
    ∧ remove 5 g1 source_a = Return tt g2
    ∧ (source_a ∉ nodes g2)
    ∧ executable_nodes g2 = [source_a]
    ∧ (¬ executable_in_nodes g2).
Proof.
  eexists _, _. split; [|split; [|split; [|split; [|split]]]].
  - apply (proj2 (add_duplicate_or_register_lemma (Graph_init "g") source_a)).
    intros n Hn. by apply not_elem_of_empty in Hn.
  - simpl. intros n Hn. apply list_elem_of_singleton in Hn as ->.
    by apply elem_of_union_l, elem_of_singleton.
  - apply remove_keeps_executable_nodes; [done|].
    by apply elem_of_union_l, elem_of_singleton.
  - simpl. set_solver.
  - reflexivity.
  - intros Hinv. specialize (Hinv source_a). simpl in Hinv.
    assert (source_a ∈ ({[source_a]} ∪ ∅ : gset Node) ∖ {[source_a]}) as Hin
      by (apply Hinv; by left).
    set_solver.
Qed.

(** ** Starting and stopping *)

(** The [for] loop follows the iterator protocol: it calls [next] and stops
    at the first [StopIteration]. *)
Lemma for_in_next {S} (it : listreviter) (body : Node → S → S) (s : S) :
  for_in it body s =
  match next it with
  | (Some x, it') => for_in it' body (body x s)
  | (None, it') => (it', s)
  end.
Proof.
  destruct it as [[|i] seq]; unfold for_in, next; simpl; [done|].
  by destruct (seq !! i).
Qed.

Lemma foldl_log (call : Node → NodeCall) (l : list Node) (log : list NodeCall) :
  foldl (λ log node, log ++ [call node]) log l = log ++ (call <$> l).
Proof.
  revert log. induction l as [|x l IH]; intros log; simpl.
  - by rewrite app_nil_r.
  - by rewrite IH, <- app_assoc.
Qed.

(** A loop over an iterator with [i] items left visits them from index
    [i - 1] down to [0] and leaves the iterator exhausted. *)
Lemma for_in_from_log (call : Node → NodeCall) (seq : list Node) (i : nat)
    (log : list NodeCall) :
  i ≤ length seq →
  for_in_from i seq (λ node log, log ++ [call node]) log =
  ({| it_index := 0; it_seq := seq |}, log ++ (call <$> reverse (take i seq))).
Proof.
  revert log. induction i as [|i IH]; intros log Hi; simpl.
  - by rewrite app_nil_r.
  - destruct (lookup_lt_is_Some_2 seq i) as [x Hx]; [lia|].
    rewrite Hx, IH by lia.
    rewrite (take_S_r _ _ _ Hx), reverse_snoc, fmap_cons.
    by rewrite <- app_assoc.
Qed.

(** A loop over an exhausted iterator does nothing. *)
Lemma for_in_exhausted {S} (seq : list Node) (body : Node → S → S) (s : S) :
  for_in {| it_index := 0; it_seq := seq |} body s =
  ({| it_index := 0; it_seq := seq |}, s).
Proof. reflexivity. Qed.

Lemma execute_log (g : Graph) (log : list NodeCall) :
  execute g log = log ++ (CallStart <$> executable_nodes g).
Proof. apply foldl_log. Qed.

(** [stop] calls [stop()] on the executable nodes, last added first, and
    nothing else: the first loop exhausts the iterator that the second loop
    runs over. *)
Lemma stop_log (g : Graph) (log : list NodeCall) :
  stop g log = log ++ (CallStop <$> reverse (executable_nodes g)).
Proof.
  unfold stop, for_in at 1, reversed; simpl.
  rewrite for_in_from_log by done.
  rewrite for_in_exhausted. by rewrite firstn_all.
Qed.

Lemma graph_abc_built :
  ∃ g1 g2,
    add (Graph_init "g") source_a = Return tt g1
    ∧ add g1 source_b = Return tt g2
    ∧ add g2 source_c = Return tt graph_abc.
Proof.
  eexists _, _. split; [|split].
  - apply (proj2 (add_duplicate_or_register_lemma (Graph_init "g") source_a)).
    intros n Hn. by apply not_elem_of_empty in Hn.
  - apply (proj2 (add_duplicate_or_register_lemma _ source_b)).
    simpl. intros n Hn. assert (n = source_a) as -> by set_solver. done.
  - rewrite (proj2 (add_duplicate_or_register_lemma _ source_c)); [reflexivity|].
    simpl. intros n Hn.
    assert (n = source_a ∨ n = source_b) as [-> | ->] by set_solver; done.
Qed.

(** C1.  On the graph whose executable nodes were added in the order a, b, c,
    [execute] starts a, b, c, and [stop] calls [stop()] on c, b, a and
    returns: it makes no [join()] call. *)
Theorem stop_requests_in_reverse_and_joins_nothing :
  execute graph_abc [] =
    [CallStart source_a; CallStart source_b; CallStart source_c]
  ∧ stop graph_abc [] =
    [CallStop source_c; CallStop source_b; CallStop source_a]
  ∧ ∀ n, CallJoin n ∉ stop graph_abc [].
Proof.
  assert (stop graph_abc [] =
          [CallStop source_c; CallStop source_b; CallStop source_a]) as Hstop
    by (rewrite stop_log; reflexivity).
  split; [|split].
  - rewrite execute_log. reflexivity.
  - exact Hstop.
  - intros n. rewrite Hstop. intros Hin.
    repeat (apply elem_of_cons in Hin as [Hin|Hin]; [discriminate|]).
    by apply elem_of_nil in Hin.
Qed.

(** ** Names, and sequences of calls *)

Lemma add_unique_names (g : Graph) (node : Node) :
  unique_names g → unique_names (graph_after g (add g node)).
Proof.
  intros Hg. unfold add.
  destruct (has_node_with_name g (name node)) eqn:Hhas; simpl; [done|].
  pose proof (proj1 (has_node_with_name_false _ _) Hhas) as Hnew.
  assert (unique_names {| graph_name := graph_name g;
                          nodes := {[node]} ∪ nodes g;
                          executable_nodes := executable_nodes g |}) as Huniq.
  { intros n m Hn Hm Hnm; simpl in *.
    apply elem_of_union in Hn as [Hn|Hn], Hm as [Hm|Hm];
      rewrite ?elem_of_singleton in *; subst.
    - done.
    - by destruct (Hnew m Hm).
    - by destruct (Hnew n Hn).
    - by apply Hg. }
  by destruct (is_thread node).
Qed.

Lemma remove_nodes (fresh : ObjId) (g : Graph) (node : Node) :
  nodes (graph_after g (remove fresh g node)) ⊆ nodes g.
Proof.
  unfold remove. destruct (decide (node ∈ nodes g)); [|done].
  destruct (bool_decide (node_id node = fresh)); simpl.
  - destruct (list_remove node (executable_nodes g)); simpl; set_solver.
  - set_solver.
Qed.

Lemma apply_op_unique_names (g : Graph) (op : GraphOp) :
  unique_names g → unique_names (apply_op g op).
Proof.
  intros Hg. destruct op as [node|fresh node|]; simpl.
  - by apply add_unique_names.
  - intros n m Hn Hm. apply Hg; by apply (remove_nodes fresh g node).
  - intros n m Hn. by apply not_elem_of_empty in Hn.
Qed.

Lemma apply_ops_unique_names (ops : list GraphOp) : ∀ g,
  unique_names g → unique_names (apply_ops g ops).
Proof.
  induction ops as [|op ops IH]; intros g Hg; [done|].
  apply IH. by apply apply_op_unique_names.
Qed.

Lemma apply_ops_init_unique_names (graph_name : string) (ops : list GraphOp) :
  unique_names (apply_ops (Graph_init graph_name) ops).
Proof.
  apply apply_ops_unique_names.
  intros n m Hn. by apply not_elem_of_empty in Hn.
Qed.

(** X1.  Whatever sequence of [add], [remove] and [clear] calls is made on a
    new graph, and whichever of them raise, no two nodes of the graph have the
    same name. *)
Theorem names_stay_unique (graph_name : string) (ops : list GraphOp) :
  unique_names (apply_ops (Graph_init graph_name) ops).
Proof. apply apply_ops_init_unique_names. Qed.

Lemma add_graph_name (g : Graph) (node : Node) :
  graph_name (graph_after g (add g node)) = graph_name g.
Proof.
  unfold add. destruct (has_node_with_name g (name node)); [done|].
  by destruct (is_thread node).
Qed.

Lemma add_has_node (g : Graph) (node : Node) :
  has_node_with_name (graph_after g (add g node)) (name node) = true.
Proof.
  unfold add. destruct (has_node_with_name g (name node)) eqn:Hhas; [done|].
  apply has_node_with_name_true. exists node. split; [|done].
  destruct (is_thread node); simpl; by apply elem_of_union_l, elem_of_singleton.
Qed.

(** X2.  After [add(node)], whether it returned or raised, the graph has a
    node of that name, so that every further [add] of a node of that name, be
    it the same object, raises the duplicate-name error and leaves the graph
    as it is. *)
Theorem add_takes_the_name (g : Graph) (node : Node) (i : ObjId) (b : bool) :
  let g' := graph_after g (add g node) in
  let node' := {| node_id := i; name := name node; is_thread := b |} in
  has_node_with_name g' (name node) = true
  ∧ add g' node = Raise (DuplicateNodeNameError node (graph_name g)) g'
  ∧ add g' node' = Raise (DuplicateNodeNameError node' (graph_name g)) g'.
Proof.
  intros g' node'. pose proof (add_has_node g node) as Hhas. fold g' in Hhas.
  pose proof (add_graph_name g node) as Hname. fold g' in Hname.
  split; [done|]. unfold add. simpl. by rewrite Hhas, Hname.
Qed.

(** X3.  [remove] of a node of the graph frees its name: no node of the graph
    has it any more, and a node of that name can be added. *)
Theorem remove_frees_the_name (graph_name : string) (ops : list GraphOp)
    (fresh : ObjId) (node node' : Node) :
  let g := apply_ops (Graph_init graph_name) ops in
  node ∈ nodes g → fresh ≠ node_id node → name node' = name node →
  ∃ g1 g2,
    remove fresh g node = Return tt g1
    ∧ has_node_with_name g1 (name node) = false
    ∧ add g1 node' = Return tt g2
    ∧ nodes g2 = {[node']} ∪ nodes g ∖ {[node]}.
Proof.
  intros g Hin Hfresh Hname.
  pose proof (apply_ops_init_unique_names graph_name ops) as Huniq.
  fold g in Huniq.
  exists {| Core.graph_name := Core.graph_name g; nodes := nodes g ∖ {[node]};
            executable_nodes := executable_nodes g |},
         {| Core.graph_name := Core.graph_name g;
            nodes := {[node']} ∪ nodes g ∖ {[node]};
            executable_nodes :=
              if is_thread node' then executable_nodes g ++ [node']
              else executable_nodes g |}.
  split; [by apply remove_keeps_executable_nodes|].
  assert (has_node_with_name
            {| Core.graph_name := Core.graph_name g; nodes := nodes g ∖ {[node]};
               executable_nodes := executable_nodes g |} (name node) = false)
    as Hfree.
  { apply has_node_with_name_false. simpl. intros n Hn Hnn.
    apply elem_of_difference in Hn as [Hn Hne].
    apply Hne, elem_of_singleton. by apply Huniq. }
  split; [done|].
  unfold add. rewrite Hname, Hfree. simpl.
  by destruct (is_thread node').
Qed.

Lemma remove_frees_the_name_example :
  ∃ g1 g2,
    remove 5 (apply_ops (Graph_init "g") [OpAdd source_a; OpAdd source_b]) source_a
      = Return tt g1
    ∧ has_node_with_name g1 (name source_a) = false
    ∧ add g1 other_a = Return tt g2
    ∧ nodes g2 =
      {[other_a]}
      ∪ nodes (apply_ops (Graph_init "g") [OpAdd source_a; OpAdd source_b])
        ∖ {[source_a]}.
Proof.
  apply (remove_frees_the_name "g" [OpAdd source_a; OpAdd source_b] 5
           source_a other_a).
  - apply (bool_decide_unpack _). vm_compute. exact I.
  - simpl. lia.
  - reflexivity.
Defined.

(** The graph that a sequence of [add] calls builds when the names differ. *)
Lemma add_all_distinct (ns : list Node) : ∀ g,
  NoDup (name <$> ns) →
  (∀ n m, n ∈ nodes g → m ∈ ns → name n ≠ name m) →
  add_all g ns =
  Return tt {| graph_name := graph_name g;
               nodes := list_to_set ns ∪ nodes g;
               executable_nodes := executable_nodes g ++ threads ns |}.
Proof.
  induction ns as [|node ns IH]; intros g Hdup Hnew; simpl.
  - destruct g as [gn ns es]; simpl. f_equal. f_equal.
    + set_solver.
    + by rewrite app_nil_r.
  - rewrite fmap_cons in Hdup. apply NoDup_cons in Hdup as [Hnode Hdup].
    rewrite (proj2 (add_duplicate_or_register_lemma g node)).
    2: { intros n Hn. apply Hnew; [done|by left]. }
    rewrite IH; simpl.
    + f_equal. f_equal.
      * set_solver.
      * unfold threads. rewrite filter_cons.
        destruct (decide (is_thread node = true)) as [Ht|Ht].
        -- rewrite Ht. by rewrite <- app_assoc.
        -- apply not_true_is_false in Ht. by rewrite Ht.
    + done.
    + intros n m Hn Hm Hnm. apply elem_of_union in Hn as [Hn|Hn].
      * apply elem_of_singleton in Hn as ->.
        apply Hnode, list_elem_of_fmap. by exists m.
      * apply (Hnew n m); [done|by right|done].
Qed.

Lemma add_all_init (graph_name : string) (ns : list Node) :
  NoDup (name <$> ns) →
  add_all (Graph_init graph_name) ns =
  Return tt {| Core.graph_name := graph_name; nodes := list_to_set ns;
               executable_nodes := threads ns |}.
Proof.
  intros Hdup. rewrite add_all_distinct; [|done|].
  - simpl. f_equal. f_equal. set_solver.
  - intros n m Hn. by apply not_elem_of_empty in Hn.
Qed.

(** X4.  A graph to which nodes of different names are added: every [add]
    returns, the graph holds these nodes, [execute] starts the thread-owning
    ones in the order in which they were added and no other node, and [stop]
    calls [stop()] on them in the reverse order and makes no other call: it
    joins no thread. *)
Theorem add_all_then_execute_and_stop (graph_name : string) (ns : list Node) :
  NoDup (name <$> ns) →
  ∃ g,
    add_all (Graph_init graph_name) ns = Return tt g
    ∧ nodes g = list_to_set ns
    ∧ execute g [] = CallStart <$> threads ns
    ∧ stop g [] = CallStop <$> reverse (threads ns).
Proof.
  intros Hdup. eexists. split; [by apply add_all_init|].
  split; [done|]. split.
  - by rewrite execute_log.
  - by rewrite stop_log.
Qed.

(** The graph of [example.py]. *)
Lemma add_all_then_execute_and_stop_example :
  ∃ g,
    add_all (Graph_init "G1") example_nodes = Return tt g
    ∧ nodes g = list_to_set example_nodes
    ∧ execute g [] = CallStart <$> threads example_nodes
    ∧ stop g [] = CallStop <$> reverse (threads example_nodes).
Proof.
  apply (add_all_then_execute_and_stop "G1" example_nodes).
  apply (bool_decide_unpack _). vm_compute. exact I.
Defined.

(** X5.  A sequence of [add] calls that comes to a node whose name an earlier
    one has taken: that call raises the duplicate-name error, which ends the
    sequence; the nodes added before it stay in the graph, and the nodes after
    it are not added. *)
Theorem add_all_stops_at_duplicate (graph_name : string) (l1 l2 : list Node)
    (node : Node) :
  NoDup (name <$> l1) → name node ∈ name <$> l1 →
  add_all (Graph_init graph_name) (l1 ++ node :: l2) =
  Raise (DuplicateNodeNameError node graph_name)
        {| Core.graph_name := graph_name; nodes := list_to_set l1;
           executable_nodes := threads l1 |}.
Proof.
  intros Hdup Hin.
  assert (∀ g g', add_all g l1 = Return tt g' →
                  add_all g (l1 ++ node :: l2) = add_all g' (node :: l2)) as Happ.
  { clear. induction l1 as [|n l1 IH]; intros g g' Hg; simpl in *.
    - by injection Hg as ->.
    - destruct (add g n); try done. by apply IH. }
  rewrite (Happ _ _ (add_all_init graph_name l1 Hdup)). simpl.
  rewrite (proj1 (add_duplicate_or_register_lemma _ node)); [done|].
  simpl. apply list_elem_of_fmap in Hin as (n & Hn & Hin).
  exists n. split; [|done]. by apply elem_of_list_to_set.
Qed.

Lemma add_all_stops_at_duplicate_example :
  add_all (Graph_init "g") ([source_a; source_b] ++ other_a :: [source_c]) =
  Raise (DuplicateNodeNameError other_a "g")
        {| graph_name := "g"; nodes := list_to_set [source_a; source_b];
           executable_nodes := threads [source_a; source_b] |}.
Proof.
  apply (add_all_stops_at_duplicate "g" [source_a; source_b] [source_c] other_a).
  - apply (bool_decide_unpack _). vm_compute. exact I.
  - apply (bool_decide_unpack _). vm_compute. exact I.
Defined.

(** *** Removing a thread-owning node and adding it again *)






End CoreProps.

(** * Properties of hydra_common *)
Module CommonProps.
Import Core Common.

Section ActiveQueueNode.
Context {Item : Type}.
Implicit Types (self : ActiveQueueNode Item) (r : Running Item).
Implicit Types (schedule : list (Step Item)) (items : list Item).

Lemma published_calls_nil self : published_calls self [] = [].
Proof. reflexivity. Qed.

Lemma published_calls_cons self item items :
  published_calls self (item :: items) =
  notify_all (aq_id self) (aq_publisher self) item ++ published_calls self items.
Proof. reflexivity. Qed.

Lemma published_calls_app self items1 items2 :
  published_calls self (items1 ++ items2) =
  published_calls self items1 ++ published_calls self items2.
Proof.
  induction items1 as [|x items1 IH]; [done|].
  rewrite <- app_comm_cons, !published_calls_cons, IH. by rewrite app_assoc.
Qed.

(** The publications depend on the identity and the subscribers of the node,
    which no step changes. *)
Lemma published_calls_same self self' items :
  aq_id self' = aq_id self → aq_publisher self' = aq_publisher self →
  published_calls self' items = published_calls self items.
Proof. unfold published_calls. by intros -> ->. Qed.

Lemma step_same_publisher r a :
  aq_id (node (step r a)) = aq_id (node r)
  ∧ aq_publisher (node (step r a)) = aq_publisher (node r).
Proof.
  destruct a; simpl; try done.
  unfold run_turn, queue_get.
  destruct (in_loop r); [|done].
  destruct (stopped (node r)); [done|].
  by destruct (queue (node r)).
Qed.

(** What a schedule has published and what it has left in the queue make up,
    in this order, what was in the queue before and what was enqueued. *)
Lemma exec_fifo schedule r :
  ∃ done,
    queue (node r) ++ enqueued schedule = done ++ queue (node (exec r schedule))
    ∧ calls (exec r schedule) = calls r ++ published_calls (node r) done.
Proof.
  revert r. induction schedule as [|a schedule IH]; intros r.
  - exists []. simpl. by rewrite !app_nil_r.
  - destruct (IH (step r a)) as (done & Hq & Hc).
    destruct (step_same_publisher r a) as [Hid Hpub].
    rewrite (published_calls_same (node r)) in Hc by done.
    change (exec r (a :: schedule)) with (exec (step r a) schedule).
    destruct a as [pub item| |]; simpl in *.
    + exists done. split; [|done]. by rewrite <- Hq, <- app_assoc.
    + by exists done.
    + unfold run_turn, queue_get in *.
      destruct (in_loop r); [|by exists done].
      destruct (stopped (node r)); [simpl in *; by exists done|].
      destruct (queue (node r)) as [|item q] eqn:Hqueue;
        rewrite ?Hqueue in Hq, Hc; simpl in *; [by exists done; rewrite Hqueue in Hq|].
      exists (item :: done). split.
      * by rewrite Hq.
      * by rewrite Hc, published_calls_cons, <- app_assoc.
Qed.

(** While nobody stops the node, its thread stays in the loop. *)
Lemma exec_keeps_running schedule r :
  DoStop ∉ schedule → in_loop r = true → stopped (node r) = false →
  in_loop (exec r schedule) = true ∧ stopped (node (exec r schedule)) = false.
Proof.
  revert r. induction schedule as [|a schedule IH]; intros r Hno Hin Hst; [done|].
  change (exec r (a :: schedule)) with (exec (step r a) schedule).
  apply IH.
  - intros ?. apply Hno. by right.
  - destruct a; simpl; try done.
    unfold run_turn, queue_get. rewrite Hin, Hst.
    by destruct (queue (node r)).
  - destruct a; simpl; try done.
    + exfalso. apply Hno. by left.
    + unfold run_turn, queue_get. rewrite Hin, Hst.
      by destruct (queue (node r)).
Qed.

(** As many turns of the loop as there are items in the queue publish them
    all, in the order of the queue. *)
Lemma turns_drain_queue r :
  in_loop r = true → stopped (node r) = false →
  let r' := exec r (replicate (length (queue (node r))) DoTurn) in
  calls r' = calls r ++ published_calls (node r) (queue (node r))
  ∧ queue (node r') = [].
Proof.
  remember (length (queue (node r))) as n eqn:Hn.
  revert r Hn. induction n as [|n IH]; intros r Hn Hin Hst; simpl.
  - destruct (queue (node r)); [|done]. by rewrite app_nil_r.
  - destruct (queue (node r)) as [|item q] eqn:Hq; [done|].
    assert (run_turn r =
            {| node := set_queue (node r) q; in_loop := true;
               calls := calls r
                        ++ notify_all (aq_id (node r)) (aq_publisher (node r)) item |})
      as Hturn by (unfold run_turn, queue_get; by rewrite Hin, Hst, Hq).
    rewrite Hturn.
    destruct (IH {| node := set_queue (node r) q; in_loop := true;
                    calls := calls r
                             ++ notify_all (aq_id (node r)) (aq_publisher (node r)) item |})
      as [Hc Hqueue]; simpl in *; [congruence|done|done|].
    split; [|done].
    by rewrite Hc, published_calls_cons, <- app_assoc.
Qed.

(** Each subscriber is called once per published item, in the order of the
    items. *)
Lemma published_calls_per_subscriber self items (s : ObjId) :
  s ∈ subscribers (aq_publisher self) →
  filter (λ c, callee c = s) (published_calls self items) =
  (λ item, Notify s (aq_id self) item) <$> items.
Proof.
  intros Hs. induction items as [|item items IH]; [done|].
  rewrite published_calls_cons, filter_app, IH, fmap_cons.
  unfold notify_all.
  rewrite (CoreProps.calls_to_member (λ x, Notify x (aq_id self) item)); [done..| |].
  - apply NoDup_elements.
  - by apply elem_of_elements.
Qed.

Lemma exec_same_publisher schedule r :
  aq_id (node (exec r schedule)) = aq_id (node r)
  ∧ aq_publisher (node (exec r schedule)) = aq_publisher (node r).
Proof.
  revert r. induction schedule as [|a schedule IH]; intros r; [done|].
  change (exec r (a :: schedule)) with (exec (step r a) schedule).
  destruct (IH (step r a)) as [-> ->]. apply step_same_publisher.
Qed.

(** [run], the method run by the node's thread alone, is a sequence of turns
    of the loop, and it returns when a turn has found the stop flag set. *)
Lemma run_is_turns (fuel : nat) : ∀ r r',
  run fuel r = Some r' →
  ∃ n, r' = exec r (replicate n DoTurn) ∧ in_loop r' = false.
Proof.
  induction fuel as [|fuel IH]; intros r r' Hrun; [done|].
  simpl in Hrun. destruct (in_loop (run_turn r)) eqn:Hin.
  - destruct (IH _ _ Hrun) as (n & -> & Hout). by exists (S n).
  - injection Hrun as <-. by exists 1.
Qed.

Lemma run_returns_when_stopped (fuel : nat) r :
  in_loop r = true → stopped (node r) = true →
  run (S fuel) r = Some {| node := node r; in_loop := false; calls := calls r |}.
Proof. intros Hin Hst. simpl. unfold run_turn. by rewrite Hin, Hst. Qed.

(** C7.  Whatever the threads do and in whatever order, the calls that the
    node has made on its subscribers are the publication, one item after the
    other, of the first of the enqueued items in the order of their enqueuing,
    and the others wait in the queue in that order; each subscriber has been
    called once for each of these items, in that order.  While nobody stops
    the node, as many further turns of its loop as there are items waiting
    publish all of them. *)
Theorem active_queue_publishes_in_fifo_order self schedule :
  let r := exec (start self) schedule in
  (∃ done,
     queue self ++ enqueued schedule = done ++ queue (node r)
     ∧ calls r = published_calls self done
     ∧ ∀ s, s ∈ subscribers (aq_publisher self) →
            filter (λ c, callee c = s) (calls r) =
            (λ item, Notify s (aq_id self) item) <$> done)
  ∧ (stopped self = false → DoStop ∉ schedule →
     let r' := exec r (replicate (length (queue (node r))) DoTurn) in
     calls r' = published_calls self (queue self ++ enqueued schedule)
     ∧ queue (node r') = []).
Proof.
  intros r. destruct (exec_fifo schedule (start self)) as (done & Hq & Hc).
  fold r in Hq, Hc. simpl in Hq, Hc. split.
  - exists done. split; [done|]. split; [done|].
    intros s Hs. rewrite Hc. by apply published_calls_per_subscriber.
  - intros Hst Hno.
    destruct (exec_keeps_running schedule (start self) Hno eq_refl Hst)
      as [Hin Hst'].
    fold r in Hin, Hst'.
    destruct (turns_drain_queue r Hin Hst') as [Hc' Hq']. split; [|done].
    destruct (exec_same_publisher schedule (start self)) as [Hid Hpub].
    fold r in Hid, Hpub. simpl in Hid, Hpub.
    rewrite Hc', Hc, (published_calls_same self (node r)) by done.
    by rewrite <- published_calls_app, Hq.
Qed.

End ActiveQueueNode.

Lemma active_queue_publishes_in_fifo_order_example :
  let r := exec (start queue_node) two_publishers in
  let r' := exec r (replicate (length (queue (node r))) DoTurn) in
  calls r' = published_calls queue_node (queue queue_node ++ enqueued two_publishers)
  ∧ queue (node r') = [].
Proof.
  apply (proj2 (active_queue_publishes_in_fifo_order queue_node two_publishers)).
  - reflexivity.
  - intros Hin. unfold two_publishers in Hin.
    repeat (apply elem_of_cons in Hin as [Hin|Hin]; [discriminate|]).
    by apply elem_of_nil in Hin.
Defined.

(** A stop request ends the publications: what is in the queue stays there. *)
Lemma stopped_queue_keeps_items :
  let r := exec (start queue_node) [DoNotify 5 10; DoStop; DoTurn; DoTurn] in
  calls r = [] ∧ queue (node r) = [10] ∧ in_loop r = false.
Proof. done. Qed.

Section Stop.
Context {Item : Type}.
Implicit Types (self : ActiveQueueNode Item) (r : Running Item).
Implicit Types (schedule : list (Step Item)).

Implicit Types (w : Worker Item) (actions : list (Action Item)).

Lemma act_same_publisher w (a : Action Item) :
  aq_id (w_node (act w a)) = aq_id (w_node w)
  ∧ aq_publisher (w_node (act w a)) = aq_publisher (w_node w).
Proof.
  destruct a; simpl; try done; destruct (phase w); try done.
  unfold queue_get. by destruct (queue (w_node w)).
Qed.

Lemma gets_then_tests_cons (a : Action Item) actions :
  gets_then_tests (a :: actions) →
  ActTest ∈ actions ∧ (a ≠ ActGet → gets_then_tests actions).
Proof.
  intros (s1 & s2 & s3 & Heq). destruct s1 as [|b s1]; simpl in Heq.
  - injection Heq as -> ->. split; [|done].
    apply elem_of_app. right. by left.
  - injection Heq as -> ->. split.
    + apply elem_of_app. right. right. apply elem_of_app. right. by left.
    + intros _. by exists s1, s2, s3.
Qed.

(** When the stop flag is set and the node's thread is not inside [get], it
    publishes nothing more, and its next test of the flag takes it out of
    the loop. *)
Lemma acts_settled actions : ∀ w,
  stopped (w_node w) = true → phase w ≠ InGet →
  w_calls (acts w actions) = w_calls w
  ∧ queue (w_node (acts w actions)) = queue (w_node w) ++ notified actions
  ∧ (ActTest ∈ actions ∨ phase w = Finished →
     phase (acts w actions) = Finished).
Proof.
  induction actions as [|a actions IH]; intros w Hst Hph.
  - simpl. rewrite app_nil_r. repeat split; try done.
    intros [H|H]; [by apply elem_of_nil in H|done].
  - change (acts w (a :: actions)) with (acts (act w a) actions).
    destruct a as [pub item| | |]; simpl.
    + destruct (IH {| w_node := notify (w_node w) pub item; phase := phase w;
                      w_calls := w_calls w |}) as (Hc & Hq & Hf); [done|done|].
      simpl in *. rewrite Hc, Hq, <- app_assoc. repeat split; try done.
      intros [H|H]; apply Hf; [left|by right].
      apply elem_of_cons in H as [H|H]; done.
    + destruct (IH {| w_node := aq_stop (w_node w); phase := phase w;
                      w_calls := w_calls w |}) as (Hc & Hq & Hf); [done|done|].
      simpl in *. rewrite Hc, Hq. repeat split; try done.
      intros [H|H]; apply Hf; [left|by right].
      apply elem_of_cons in H as [H|H]; done.
    + destruct (phase w) eqn:Hphase; [|done|].
      * rewrite Hst.
        destruct (IH {| w_node := w_node w; phase := Finished;
                        w_calls := w_calls w |}) as (Hc & Hq & Hf);
          [done|done|].
        simpl in *. rewrite Hc, Hq. repeat split; try done.
        intros _. apply Hf. by right.
      * destruct (IH w Hst) as (Hc & Hq & Hf); [by rewrite Hphase|].
        rewrite Hc, Hq. repeat split; try done.
        intros _. apply Hf. by right.
    + destruct (phase w) eqn:Hphase; [|done|].
      * destruct (IH w Hst) as (Hc & Hq & Hf); [by rewrite Hphase|].
        rewrite Hc, Hq. repeat split; try done.
        intros [H|H]; [|done]. apply Hf. left.
        apply elem_of_cons in H as [H|H]; done.
      * destruct (IH w Hst) as (Hc & Hq & Hf); [by rewrite Hphase|].
        rewrite Hc, Hq. repeat split; try done.
        intros _. apply Hf. by right.
Qed.

(** When the stop flag is set, the node's thread publishes one more item at
    most: the one with which it comes out of a [get] that it has entered
    before. *)
Lemma acts_stopped actions : ∀ w,
  stopped (w_node w) = true →
  ∃ items,
    w_calls (acts w actions) = w_calls w ++ published_calls (w_node w) items
    ∧ queue (w_node w) ++ notified actions
      = items ++ queue (w_node (acts w actions))
    ∧ length items ≤ 1
    ∧ (phase w ≠ InGet → items = [])
    ∧ (gets_then_tests actions → phase (acts w actions) = Finished).
Proof.
  induction actions as [|a actions IH]; intros w Hst.
  - exists []. simpl. rewrite !app_nil_r. repeat split; try done; [lia|].
    intros (s1 & s2 & s3 & Heq). by destruct s1.
  - assert (phase w = InGet ∨ phase w ≠ InGet) as [Hin|Hout]
      by (destruct (phase w); auto).
    2: { destruct (acts_settled (a :: actions) w Hst Hout) as (Hc & Hq & Hf).
         exists []. rewrite Hc, Hq, published_calls_nil, app_nil_r.
         repeat split; try done; [simpl; lia|].
         intros Hsched. apply Hf. left.
         destruct (gets_then_tests_cons _ _ Hsched) as [Htest _]. by right. }
    change (acts w (a :: actions)) with (acts (act w a) actions).
    destruct (act_same_publisher w a) as [Hid Hpub].
    destruct a as [pub item| | |]; simpl in *.
    + destruct (IH {| w_node := notify (w_node w) pub item; phase := phase w;
                      w_calls := w_calls w |}) as (items & Hc & Hq & Hl & _ & Hf);
        [done|].
      simpl in *. exists items.
      rewrite (published_calls_same (w_node w)) in Hc by done.
      split; [done|]. split; [by rewrite <- Hq, <- app_assoc|].
      split; [done|]. split; [done|].
      intros Hsched. apply Hf.
      by apply (gets_then_tests_cons _ _ Hsched).
    + destruct (IH {| w_node := aq_stop (w_node w); phase := phase w;
                      w_calls := w_calls w |}) as (items & Hc & Hq & Hl & _ & Hf);
        [done|].
      simpl in *. exists items.
      split; [done|]. split; [done|]. split; [done|]. split; [done|].
      intros Hsched. apply Hf.
      by apply (gets_then_tests_cons _ _ Hsched).
    + rewrite Hin in *.
      destruct (IH w Hst) as (items & Hc & Hq & Hl & _ & Hf).
      exists items.
      split; [done|]. split; [done|]. split; [done|]. split; [done|].
      intros Hsched. apply Hf.
      by apply (gets_then_tests_cons _ _ Hsched).
    + rewrite Hin in *. unfold queue_get in *.
      destruct (queue (w_node w)) as [|item q] eqn:Hqueue; simpl in *.
      * destruct (acts_settled actions
                    {| w_node := w_node w; phase := AtTest;
                       w_calls := w_calls w |}) as (Hc & Hq & Hf);
          [done|done|].
        simpl in *. exists []. rewrite Hc, Hq, Hqueue, published_calls_nil.
        rewrite app_nil_r. repeat split; try done; [simpl; lia|].
        intros Hsched. apply Hf. left.
        by apply (gets_then_tests_cons _ _ Hsched).
      * destruct (acts_settled actions
                    {| w_node := set_queue (w_node w) q; phase := AtTest;
                       w_calls := w_calls w
                         ++ notify_all (aq_id (w_node w))
                                       (aq_publisher (w_node w)) item |})
          as (Hc & Hq & Hf); [done|done|].
        simpl in *. exists [item]. rewrite Hc, Hq.
        rewrite published_calls_cons, published_calls_nil, app_nil_r.
        repeat split; try done.
        intros Hsched. apply Hf. left.
        by apply (gets_then_tests_cons _ _ Hsched).
Qed.

(** X7.  Once [stop] has been called, whatever the threads do afterwards, the
    node publishes one more item at most: the head of the queue, when its
    thread had read the stop flag as unset before the call and was inside
    [queue.get], and none when its thread was about to test the flag.  The
    other items stay in the queue in their order, [notify] still puts new
    items behind them, and the thread is out of its loop when it has come out
    of [get] and tested the flag. *)
Theorem stop_ends_publication w actions :
  let w' := acts (act w ActStop) actions in
  ∃ items,
    w_calls w' = w_calls w ++ published_calls (w_node w) items
    ∧ queue (w_node w) ++ notified actions = items ++ queue (w_node w')
    ∧ length items ≤ 1
    ∧ (phase w ≠ InGet → items = [])
    ∧ (gets_then_tests actions → phase w' = Finished).
Proof.
  intros w'. destruct (acts_stopped actions (act w ActStop)) as (items & H);
    [done|].
  by exists items.
Qed.

Lemma run_goes_on (fuel : nat) : ∀ r,
  in_loop r = true → stopped (node r) = false → run fuel r = None.
Proof.
  induction fuel as [|fuel IH]; intros r Hin Hst; [done|].
  simpl. unfold run_turn, queue_get. rewrite Hin, Hst.
  destruct (queue (node r)) as [|item q]; simpl; by apply IH.
Qed.

(** X8.  The thread of a queue node, left to itself: [run] returns at once
    when the stop flag is set before it starts, having published nothing, and
    otherwise it does not return, however many turns it is given: an empty
    queue does not end it. *)
Theorem run_ends_only_by_stop self (fuel : nat) :
  run (S fuel) (start self) =
  if stopped self then Some {| node := self; in_loop := false; calls := [] |}
  else None.
Proof.
  destruct (stopped self) eqn:Hst.
  - by rewrite run_returns_when_stopped.
  - by apply run_goes_on.
Qed.

End Stop.

(** An item that is put in the queue after the call of [stop] is published
    when the node's thread was inside [get] at the time of the call. *)
Lemma stop_during_get_publishes_one :
  let w := acts (spawn queue_node) stop_during_get in
  w_calls w = [Notify 9 1 10] ∧ queue (w_node w) = [] ∧ phase w = Finished.
Proof. done. Qed.

End CommonProps.

(** * Properties of hydra_net *)
Module NetProps.
Import Core Net.

(** ** Reading from a connection *)

(** A read with a timeout of a segment that is not empty. *)
Lemma recv_events_segment (n : nat) (b : byte) (data : bytes) (evs : list NetEvent) :
  recv_events false n (Seg (b :: data) :: evs) =
  (RecvData (take n (b :: data)),
   match drop n (b :: data) with
   | [] => evs
   | rest => Seg rest :: evs
   end).
Proof. reflexivity. Qed.

(** A blocking read of up to [n] bytes, when the events carry between one and
    [n] bytes: it returns a first part of them, not empty, and leaves the
    others. *)
Lemma recv_events_stream (n : nat) (evs : list NetEvent) (rest : bytes) :
  stream evs = Some rest → rest ≠ [] → length rest ≤ n →
  ∃ data evs' rest',
    recv_events true n evs = (RecvData data, evs')
    ∧ data ≠ [] ∧ rest = data ++ rest' ∧ stream evs' = Some rest'.
Proof.
  revert rest. induction evs as [|ev evs IH]; intros rest Hs Hne Hlen.
  - simpl in Hs. congruence.
  - destruct ev as [data| | |]; simpl in Hs; try discriminate.
    + destruct (stream evs) as [rest0|] eqn:Hrest0; [|discriminate].
      injection Hs as <-. destruct data as [|b data].
      * simpl. by apply IH.
      * exists (b :: data), evs, rest0.
        rewrite length_app in Hlen.
        cbn [recv_events].
        rewrite take_ge, drop_ge by lia. done.
    + simpl. by apply IH.
Qed.

(** ** One fetch step *)

(** Unfolds the operations on the state, for a state given by its fields. *)
Ltac step_state :=
  unfold sock_settimeout, sock_recv, sock_close, sock_send, publish, the_sock,
    the_server_sock, modify, get_state, bind, ret, raise,
    set_sock, set_server_sock, set_stop_clock, set_accepts, set_connects, emit;
  cbn [sock server_sock stop_clock accepts connects trace connected timeout
       incoming is_blocking].

(** C10.  When [get_message_size] returns 0 for the header that was read, the
    fetch step publishes one item and returns [True], whether or not a stop
    has been requested: the header when [keep_header_data] is set, the empty
    byte string when it is not. *)
Theorem zero_size_message_is_published (self : TcpSourceSink) (hb : bytes)
    (evs evs' : list NetEvent) (srv : option ServerSocket) (t0 clk : option nat)
    (acc con : list Attempt) (tr : list Event) :
  (0 < header_length (tcp_header self))%Z →
  recv_events false (Z.to_nat (header_length (tcp_header self))) evs
    = (RecvData hb, evs') →
  hb ≠ [] →
  get_message_size (tcp_header self) hb = 0%Z →
  get_next_item self
    {| server_sock := srv;
       sock := Some {| connected := true; timeout := t0; incoming := evs |};
       stop_clock := clk; accepts := acc; connects := con; trace := tr |}
  = Return true
      {| server_sock := srv;
         sock := Some {| connected := true; timeout := Some (sock_timeout self);
                         incoming := evs' |};
         stop_clock := clk; accepts := acc; connects := con;
         trace := tr ++ (EvNotify <$>
                   notify_all (self_id self) (tcp_publisher self)
                              (if keep_header_data self then hb else [])) |}.
Proof.
  intros HH Hrecv Hne Hsize.
  unfold get_next_item, try_except, get_next_item_body.
  apply Z.ltb_lt in HH. rewrite HH. step_state.
  rewrite Hrecv. destruct hb as [|b hb]; [done|].
  unfold after_header. rewrite Hsize, HH. step_state. simpl.
  step_state. rewrite app_nil_r. reflexivity.
Qed.

(** The header [00 00] announces no payload; the stop flag is set. *)
Lemma zero_size_message_is_published_example :
  get_next_item (example_node false false)
    {| server_sock := None;
       sock := Some {| connected := true; timeout := None;
                       incoming := [Seg [x00; x00]] |};
       stop_clock := Some 0; accepts := []; connects := []; trace := [] |}
  = Return true
      {| server_sock := None;
         sock := Some {| connected := true;
                         timeout := Some (sock_timeout (example_node false false));
                         incoming := [] |};
         stop_clock := Some 0; accepts := []; connects := [];
         trace := [] ++ (EvNotify <$>
                   notify_all (self_id (example_node false false))
                     (tcp_publisher (example_node false false))
                     (if keep_header_data (example_node false false)
                      then [x00; x00] else [])) |}.
Proof.
  apply (zero_size_message_is_published (example_node false false)
           [x00; x00] [Seg [x00; x00]] []); [reflexivity|reflexivity|done|reflexivity].
Defined.

(** With a header length of 0 no header is read; a size of 0 then makes the
    step publish the empty byte string. *)
Lemma zero_size_without_header (self : TcpSourceSink)
    (evs : list NetEvent) (srv : option ServerSocket) (t0 clk : option nat)
    (acc con : list Attempt) (tr : list Event) :
  (header_length (tcp_header self) ≤ 0)%Z →
  get_message_size (tcp_header self) [] = 0%Z →
  get_next_item self
    {| server_sock := srv;
       sock := Some {| connected := true; timeout := t0; incoming := evs |};
       stop_clock := clk; accepts := acc; connects := con; trace := tr |}
  = Return true
      {| server_sock := srv;
         sock := Some {| connected := true; timeout := Some (sock_timeout self);
                         incoming := evs |};
         stop_clock := clk; accepts := acc; connects := con;
         trace := tr ++ (EvNotify <$>
                   notify_all (self_id self) (tcp_publisher self) []) |}.
Proof.
  intros HH Hsize.
  unfold get_next_item, try_except, get_next_item_body.
  apply Z.ltb_ge in HH. rewrite HH. step_state.
  unfold after_header. rewrite Hsize, HH. by step_state.
Qed.

Lemma zero_size_without_header_example :
  get_next_item
    {| self_id := 1; node_name := "tcp"; ip_address := "127.0.0.1"; port := 5000;
       is_server := false; keep_header_data := true; sock_timeout := 1;
       tcp_header := fixed_size 0;
       tcp_publisher := add_subscriber Publisher_init 9 |}
    {| server_sock := None;
       sock := Some {| connected := true; timeout := None; incoming := [] |};
       stop_clock := None; accepts := []; connects := []; trace := [] |}
  = Return true
      {| server_sock := None;
         sock := Some {| connected := true; timeout := Some 1; incoming := [] |};
         stop_clock := None; accepts := []; connects := [];
         trace := [EvNotify (Notify 9 1 [])] |}.
Proof. by rewrite zero_size_without_header. Qed.

(** With a header length above 0, when the read of the header returns no
    byte, the peer has closed: the socket is closed and forgotten, nothing is
    published and the step returns [False]. *)
Lemma empty_header_read_closes (self : TcpSourceSink)
    (evs evs' : list NetEvent) (srv : option ServerSocket) (t0 clk : option nat)
    (acc con : list Attempt) (tr : list Event) :
  (0 < header_length (tcp_header self))%Z →
  recv_events false (Z.to_nat (header_length (tcp_header self))) evs
    = (RecvData [], evs') →
  get_next_item self
    {| server_sock := srv;
       sock := Some {| connected := true; timeout := t0; incoming := evs |};
       stop_clock := clk; accepts := acc; connects := con; trace := tr |}
  = Return false
      {| server_sock := srv; sock := None; stop_clock := clk;
         accepts := acc; connects := con; trace := tr ++ [EvClose] |}.
Proof.
  intros HH Hrecv.
  unfold get_next_item, try_except, get_next_item_body.
  apply Z.ltb_lt in HH. rewrite HH. step_state.
  rewrite Hrecv. reflexivity.
Qed.

Lemma empty_header_read_closes_example :
  get_next_item (example_node false true)
    {| server_sock := None;
       sock := Some {| connected := true; timeout := None; incoming := [Fin] |};
       stop_clock := None; accepts := []; connects := []; trace := [] |}
  = Return false
      {| server_sock := None; sock := None; stop_clock := None;
         accepts := []; connects := []; trace := [] ++ [EvClose] |}.
Proof.
  apply (empty_header_read_closes _ [Fin] [Fin]); reflexivity.
Defined.

(** A reset of the connection while the header is read ends the same way. *)
Lemma reset_header_read_closes (self : TcpSourceSink)
    (evs evs' : list NetEvent) (srv : option ServerSocket) (t0 clk : option nat)
    (acc con : list Attempt) (tr : list Event) :
  (0 < header_length (tcp_header self))%Z →
  recv_events false (Z.to_nat (header_length (tcp_header self))) evs
    = (RecvConnectionError, evs') →
  get_next_item self
    {| server_sock := srv;
       sock := Some {| connected := true; timeout := t0; incoming := evs |};
       stop_clock := clk; accepts := acc; connects := con; trace := tr |}
  = Return false
      {| server_sock := srv; sock := None; stop_clock := clk;
         accepts := acc; connects := con; trace := tr ++ [EvClose] |}.
Proof.
  intros HH Hrecv.
  unfold get_next_item, try_except, get_next_item_body.
  apply Z.ltb_lt in HH. rewrite HH. step_state.
  rewrite Hrecv. reflexivity.
Qed.

(** A timeout while the header is awaited is not an error: the step returns
    [True] and publishes nothing. *)
Lemma header_timeout_goes_on (self : TcpSourceSink)
    (evs evs' : list NetEvent) (srv : option ServerSocket) (t0 clk : option nat)
    (acc con : list Attempt) (tr : list Event) :
  (0 < header_length (tcp_header self))%Z →
  recv_events false (Z.to_nat (header_length (tcp_header self))) evs
    = (RecvTimeout, evs') →
  get_next_item self
    {| server_sock := srv;
       sock := Some {| connected := true; timeout := t0; incoming := evs |};
       stop_clock := clk; accepts := acc; connects := con; trace := tr |}
  = Return true
      {| server_sock := srv;
         sock := Some {| connected := true; timeout := Some (sock_timeout self);
                         incoming := evs' |};
         stop_clock := clk; accepts := acc; connects := con; trace := tr |}.
Proof.
  intros HH Hrecv.
  unfold get_next_item, try_except, get_next_item_body.
  apply Z.ltb_lt in HH. rewrite HH. step_state.
  rewrite Hrecv. reflexivity.
Qed.

(** C3.  The header [00 02] and the payload [aa bb], of which the network
    delivers the first byte alone: the one [recv] of [header_length] bytes
    with which the step reads the header returns that one byte, a short read.
    The step does not read on until it has the two bytes of the header, and it
    does not treat the short read as the peer having closed: it does not close
    the socket and does not return [False].  It takes the byte for the header,
    finds the size 0 in it, publishes the byte and returns [True], leaving the
    other byte of the header for the next step. *)
Theorem short_header_read_is_taken_as_header :
  let first_read := recv_events false 2 [Seg [x00]; Seg [x02; xaa; xbb]] in
  first_read = (RecvData [x00], [Seg [x02; xaa; xbb]])
  ∧ get_next_item (example_node false true)
      {| server_sock := None;
         sock := Some {| connected := true; timeout := Some 1;
                         incoming := [Seg [x00];
                                      Seg [x02; xaa; xbb]] |};
         stop_clock := None; accepts := []; connects := []; trace := [] |}
    = Return true
        {| server_sock := None;
           sock := Some {| connected := true; timeout := Some 1;
                           incoming := [Seg [x02; xaa; xbb]] |};
           stop_clock := None; accepts := []; connects := [];
           trace := [EvNotify (Notify 9 1 [x00])] |}.
Proof. split; vm_compute; reflexivity. Qed.

(** ** The payload loop *)

(** When the connection carries exactly the bytes that are still to be read,
    in whatever segments and with whatever pauses, and no stop is seen
    meanwhile, the loop reads them all and leaves with the full count. *)
Lemma read_payload_stream (fuel : nat) :
  ∀ (evs : list NetEvent) (rest : bytes) (bytes_to_read bytes_read : Z)
    (data : bytes) (srv : option ServerSocket) (clk : option nat)
    (acc con : list Attempt) (tr : list Event),
  stream evs = Some rest →
  (bytes_to_read - bytes_read)%Z = Z.of_nat (length rest) →
  length rest ≤ fuel →
  unset_for (length rest) clk →
  ∃ evs' clk',
    read_payload fuel bytes_to_read bytes_read data
      {| server_sock := srv;
         sock := Some {| connected := true; timeout := None; incoming := evs |};
         stop_clock := clk; accepts := acc; connects := con; trace := tr |}
    = Return (inr (bytes_to_read, data ++ rest))
        {| server_sock := srv;
           sock := Some {| connected := true; timeout := None; incoming := evs' |};
           stop_clock := clk'; accepts := acc; connects := con; trace := tr |}
    ∧ stream evs' = Some [].
Proof.
  induction fuel as [|fuel IH];
    intros evs rest n br data srv clk acc con tr Hs Hn Hfuel Hclk.
  - destruct rest; [|simpl in Hfuel; lia].
    exists evs, clk. simpl in Hn. unfold read_payload.
    rewrite (proj2 (Z.ltb_ge br n)) by lia.
    rewrite app_nil_r. split; [|done].
    replace n with br by lia. reflexivity.
  - destruct rest as [|b rest0] eqn:Hrest.
    { exists evs, clk. simpl in Hn. simpl.
      rewrite (proj2 (Z.ltb_ge br n)) by lia.
      rewrite app_nil_r. split; [|done].
      replace n with br by lia. reflexivity. }
    rewrite <- Hrest in *.
    assert (rest ≠ []) as Hne by (rewrite Hrest; done).
    assert (0 < length rest) as Hpos by (rewrite Hrest; simpl; lia).
    destruct (recv_events_stream (length rest) evs rest Hs Hne (le_n _))
      as (d & evs1 & rest1 & Hrecv & Hd & Hsplit & Hs1).
    assert (length rest = length d + length rest1) as Hlen
      by (rewrite Hsplit at 1; apply length_app).
    assert (0 < length d) as Hdpos by (destruct d; [done|simpl; lia]).
    cbn [read_payload].
    rewrite (proj2 (Z.ltb_lt br n)) by lia.
    assert (∃ clk1, is_set {| server_sock := srv;
                   sock := Some {| connected := true; timeout := None;
                                   incoming := evs |};
                   stop_clock := clk; accepts := acc; connects := con;
                   trace := tr |}
            = Return false
                {| server_sock := srv;
                   sock := Some {| connected := true; timeout := None;
                                   incoming := evs |};
                   stop_clock := clk1; accepts := acc; connects := con;
                   trace := tr |}
            ∧ unset_for (length rest1) clk1) as (clk1 & Hset & Hclk1).
    { unfold is_set; simpl. destruct clk as [[|c]|]; simpl in Hclk.
      - lia.
      - exists (Some c). split; [done|]. simpl. lia.
      - by exists None. }
    unfold bind at 1. rewrite Hset.
    step_state. rewrite Hn, Nat2Z.id, Hrecv.
    destruct d as [|b1 d1] eqn:Hdeq; [done|]. rewrite <- Hdeq in *.
    destruct (IH evs1 rest1 n (br + Z.of_nat (length d))%Z (data ++ d)
                 srv clk1 acc con tr) as (evs' & clk' & Hrun & Hs');
      [done|lia|lia|done|].
    exists evs', clk'. split; [|done].
    rewrite Hdeq in Hrun |- *. step_state. rewrite Hrun.
    by rewrite Hsplit, Hdeq, app_assoc.
Qed.

(** ** The fuel of a fetch step *)

Lemma bind_has_fuel {A B} (m : M A) (k : A → M B) s :
  m s ≠ OutOfFuel →
  (∀ a s', m s = Return a s' → k a s' ≠ OutOfFuel) →
  bind m k s ≠ OutOfFuel.
Proof. unfold bind. destruct (m s); auto. Qed.

Lemma try_except_has_fuel {A} (m : M A) handler s :
  m s ≠ OutOfFuel →
  (∀ e h s', handler e = Some h → h s' ≠ OutOfFuel) →
  try_except m handler s ≠ OutOfFuel.
Proof.
  unfold try_except. destruct (m s) as [| e s' | |]; auto.
  intros _ Hh. destruct (handler e) eqn:He; [by eapply Hh|done].
Qed.

Lemma is_set_has_fuel s : is_set s ≠ OutOfFuel.
Proof. unfold is_set. by destruct (stop_clock s) as [[|c]|]. Qed.

Lemma the_sock_has_fuel s : the_sock s ≠ OutOfFuel.
Proof. unfold the_sock. by destruct (sock s). Qed.

Lemma sock_settimeout_has_fuel t s : sock_settimeout t s ≠ OutOfFuel.
Proof.
  unfold sock_settimeout. apply bind_has_fuel; [apply the_sock_has_fuel|done].
Qed.

Lemma sock_close_has_fuel s : sock_close s ≠ OutOfFuel.
Proof.
  unfold sock_close. apply bind_has_fuel; [apply the_sock_has_fuel|done].
Qed.

Lemma sock_recv_has_fuel n s : sock_recv n s ≠ OutOfFuel.
Proof.
  unfold sock_recv. apply bind_has_fuel; [apply the_sock_has_fuel|].
  intros so s' _. destruct (connected so); [|done].
  destruct (recv_events _ _ _) as [[] evs]; by apply bind_has_fuel.
Qed.

Lemma close_forget_has_fuel {A} (a : A) s :
  bind sock_close (λ _, bind (modify (set_sock None)) (λ _, ret a)) s ≠ OutOfFuel.
Proof. apply bind_has_fuel; [apply sock_close_has_fuel|done]. Qed.

(** A read that returns data on a stream socket returns at most as many
    bytes as were asked for; the loop counts those it got. *)
Lemma read_payload_has_fuel (fuel : nat) :
  ∀ (bytes_to_read bytes_read : Z) (data : bytes) (s : State),
  (bytes_to_read - bytes_read ≤ Z.of_nat fuel)%Z →
  read_payload fuel bytes_to_read bytes_read data s ≠ OutOfFuel.
Proof.
  induction fuel as [|fuel IH]; intros n br data s Hfuel; cbn [read_payload].
  - by rewrite (proj2 (Z.ltb_ge br n)) by lia.
  - destruct (br <? n)%Z; [|done].
    apply bind_has_fuel; [apply is_set_has_fuel|].
    intros [] s1 _; [done|].
    apply bind_has_fuel; [apply sock_recv_has_fuel|].
    intros [|b tmp] s2 _; [apply close_forget_has_fuel|].
    apply IH. simpl length. lia.
Qed.

Lemma after_header_has_fuel (self : TcpSourceSink) header_bytes s :
  after_header self header_bytes s ≠ OutOfFuel.
Proof.
  unfold after_header.
  apply bind_has_fuel; [apply sock_settimeout_has_fuel|]. intros _ s1 _.
  apply bind_has_fuel; [apply read_payload_has_fuel; lia|].
  intros [b|[bytes_read data]] s2 _; [done|].
  apply bind_has_fuel; [by destruct (bool_decide _)|]. intros _ s3 _.
  apply bind_has_fuel; [apply sock_settimeout_has_fuel|done].
Qed.

(** A fetch step does not run out of fuel: the evaluation of the method
    always comes to an end, with a return, an exception, or a read that
    blocks. *)
Lemma get_next_item_has_fuel (self : TcpSourceSink) (s : State) :
  get_next_item self s ≠ OutOfFuel.
Proof.
  unfold get_next_item. apply try_except_has_fuel.
  - unfold get_next_item_body.
    apply bind_has_fuel; [apply sock_settimeout_has_fuel|]. intros _ s1 _.
    destruct (0 <? header_length (tcp_header self))%Z;
      [|apply after_header_has_fuel].
    apply bind_has_fuel; [apply sock_recv_has_fuel|].
    intros [|b hb] s2 _;
      [apply close_forget_has_fuel|apply after_header_has_fuel].
  - intros e h s'. destruct e; simpl; intros [= <-]; [done|].
    apply close_forget_has_fuel.
Qed.

(** ** A whole message *)

(** A message of which the header is read whole.  The header strategy has a
    header length above 0; the connection carries a header [h] of that length
    and then the payload, of the size that the strategy finds in [h]: the
    header arrives with the first segment,
    which may also hold the first part [p1] of the payload, and the other part
    [p2] arrives in whatever segments and with whatever pauses.  While no stop
    is requested, one fetch step returns [True] and makes the [notify] calls of
    one publication and no other: of header and payload when
    [keep_header_data] is set, of the payload when it is not.  Nothing of the
    message is left on the connection. *)
Lemma framing_round_trip (self : TcpSourceSink) (h p1 p2 : bytes)
    (evs : list NetEvent) (srv : option ServerSocket) (t0 clk : option nat)
    (acc con : list Attempt) (tr : list Event) :
  (0 < header_length (tcp_header self))%Z →
  Z.of_nat (length h) = header_length (tcp_header self) →
  get_message_size (tcp_header self) h = Z.of_nat (length (p1 ++ p2)) →
  stream evs = Some p2 →
  unset_for (length (p1 ++ p2)) clk →
  ∃ evs' clk',
    get_next_item self
      {| server_sock := srv;
         sock := Some {| connected := true; timeout := t0;
                         incoming := Seg (h ++ p1) :: evs |};
         stop_clock := clk; accepts := acc; connects := con; trace := tr |}
    = Return true
        {| server_sock := srv;
           sock := Some {| connected := true;
                           timeout := Some (sock_timeout self);
                           incoming := evs' |};
           stop_clock := clk'; accepts := acc; connects := con;
           trace := tr ++ (EvNotify <$>
                     notify_all (self_id self) (tcp_publisher self)
                       (if keep_header_data self then h ++ p1 ++ p2
                        else p1 ++ p2)) |}
    ∧ stream evs' = Some [].
Proof.
  intros HH Hlen Hsize Hs Hclk.
  destruct h as [|b h0] eqn:Hh; [simpl in Hlen; lia|]. rewrite <- Hh in *.
  assert (h ++ p1 = b :: (h0 ++ p1)) as Hcons by (by rewrite Hh).
  set (evs1 := match p1 with [] => evs | _ => Seg p1 :: evs end).
  assert (recv_events false (Z.to_nat (header_length (tcp_header self)))
            (Seg (h ++ p1) :: evs) = (RecvData h, evs1)) as Hrecv.
  { rewrite <- Hlen, Nat2Z.id, Hcons, recv_events_segment, <- Hcons.
    rewrite take_app_length, drop_app_length. subst evs1. by destruct p1. }
  assert (stream evs1 = Some (p1 ++ p2)) as Hs1.
  { subst evs1. destruct p1; simpl; by rewrite Hs. }
  destruct (read_payload_stream (length (p1 ++ p2)) evs1 (p1 ++ p2)
              (Z.of_nat (length (p1 ++ p2))) 0 [] srv clk acc con tr)
    as (evs' & clk' & Hrun & Hs'); [done|lia|done|done|].
  exists evs', clk'. split; [|done].
  unfold get_next_item, try_except, get_next_item_body.
  apply Z.ltb_lt in HH. rewrite HH. step_state.
  rewrite Hrecv, Hh, <- Hh.
  unfold after_header. rewrite Hsize, HH, Nat2Z.id. step_state.
  rewrite Hrun. step_state.
  rewrite bool_decide_eq_true_2 by done.
  reflexivity.
Qed.

(** The header [00 02] and the payload [aa bb]: the first segment holds the
    header and the first byte of the payload, the other byte comes after a
    pause. *)
Lemma framing_round_trip_example :
  ∃ evs' clk',
    get_next_item (example_node false true)
      {| server_sock := None;
         sock := Some {| connected := true; timeout := None;
                         incoming := Seg ([x00; x02] ++ [xaa]) :: [Idle; Seg [xbb]] |};
         stop_clock := Some 5; accepts := []; connects := []; trace := [] |}
    = Return true
        {| server_sock := None;
           sock := Some {| connected := true;
                           timeout := Some (sock_timeout (example_node false true));
                           incoming := evs' |};
           stop_clock := clk'; accepts := []; connects := [];
           trace := [] ++ (EvNotify <$>
                     notify_all (self_id (example_node false true))
                       (tcp_publisher (example_node false true))
                       (if keep_header_data (example_node false true)
                        then [x00; x02] ++ [xaa] ++ [xbb]
                        else [xaa] ++ [xbb])) |}
    ∧ stream evs' = Some [].
Proof.
  apply (framing_round_trip (example_node false true) [x00; x02] [xaa] [xbb]
           [Idle; Seg [xbb]] None None (Some 5) [] [] []);
    [reflexivity|reflexivity|reflexivity|reflexivity|simpl; lia].
Defined.

(** The same message, when a stop is requested before the payload is read:
    the step returns [True] and publishes nothing. *)
Lemma stop_before_payload_publishes_nothing :
  get_next_item (example_node false true)
    {| server_sock := None;
       sock := Some {| connected := true; timeout := None;
                       incoming := [Seg [x00; x02; xaa; xbb]] |};
       stop_clock := Some 0; accepts := []; connects := []; trace := [] |}
  = Return true
      {| server_sock := None;
         sock := Some {| connected := true; timeout := Some 1;
                         incoming := [Seg [xaa; xbb]] |};
         stop_clock := Some 0; accepts := []; connects := []; trace := [] |}.
Proof. vm_compute. reflexivity. Qed.

(** C2.  The stream [00 02 aa bb], the header [00 02] of the strategy
    [length_prefix] and the two bytes of payload that it announces, of which
    the network delivers the first byte in a segment of its own.  One fetch
    step does not deliver the message: it takes the byte [00] for the header
    and publishes that byte when [keep_header_data] is set, and the empty
    byte string when it is not.  The next step takes [02 aa] for a header,
    reads the last byte as the start of a payload of 682 bytes and waits for
    the others: the message is not delivered afterwards either. *)
Theorem split_header_breaks_framing :
  let s keep :=
    get_next_item (example_node false keep)
      {| server_sock := None;
         sock := Some {| connected := true; timeout := Some 1;
                         incoming := [Seg [x00]; Seg [x02; xaa; xbb]] |};
         stop_clock := None; accepts := []; connects := []; trace := [] |} in
  let s1 item :=
    {| server_sock := None;
       sock := Some {| connected := true; timeout := Some 1;
                       incoming := [Seg [x02; xaa; xbb]] |};
       stop_clock := None; accepts := []; connects := [];
       trace := [EvNotify (Notify 9 1 item)] |} in
  let s2 item :=
    {| server_sock := None;
       sock := Some {| connected := true; timeout := None; incoming := [] |};
       stop_clock := None; accepts := []; connects := [];
       trace := [EvNotify (Notify 9 1 item)] |} in
  stream [Seg [x00]; Seg [x02; xaa; xbb]] = Some ([x00; x02] ++ [xaa; xbb])
  ∧ get_message_size length_prefix [x00; x02] = 2%Z
  ∧ s true = Return true (s1 [x00])
  ∧ s false = Return true (s1 [])
  ∧ get_next_item (example_node false true) (s1 [x00]) = Blocked (s2 [x00])
  ∧ get_next_item (example_node false false) (s1 []) = Blocked (s2 []).
Proof. repeat split; vm_compute; reflexivity. Qed.

(** ** Rules for [wp] *)

Lemma wp_ret {A} (a : A) Q E s : Q a s → wp (ret a) Q E s.
Proof. done. Qed.

Lemma wp_modify f (Q : unit → State → Prop) E s : Q tt (f s) → wp (modify f) Q E s.
Proof. done. Qed.

Lemma wp_bind {A B} (m : M A) (k : A → M B) Q E s :
  wp m (λ a s', wp (k a) Q E s') E s → wp (bind m k) Q E s.
Proof. unfold wp, bind. by destruct (m s). Qed.

Lemma wp_try_except {A} (m : M A) handler Q E s :
  wp m Q
     (λ oe s', match oe with
               | Some e => match handler e with
                           | Some h => wp h Q E s'
                           | None => E (Some e) s'
                           end
               | None => E None s'
               end) s →
  wp (try_except m handler) Q E s.
Proof.
  unfold wp, try_except. cbv beta.
  destruct (m s) as [a s'|e s'|s'|]; [done| |done|done].
  by destruct (handler e).
Qed.

Lemma wp_mono {A} (m : M A) (Q Q' : A → State → Prop) (E E' : option exn → State → Prop) s :
  wp m Q E s →
  (∀ a s', Q a s' → Q' a s') → (∀ e s', E e s' → E' e s') →
  wp m Q' E' s.
Proof. unfold wp. destruct (m s); auto. Qed.

Lemma wp_eq {A} (m m' : M A) Q E s s' :
  m s = m' s' → wp m' Q E s' → wp m Q E s.
Proof. unfold wp. by intros ->. Qed.

Lemma added_refl s : added s [] s.
Proof. split; [done|]. by rewrite app_nil_r. Qed.

Lemma added_trans s1 s2 s3 t1 t2 :
  added s1 t1 s2 → added s2 t2 s3 → added s1 (t1 ++ t2) s3.
Proof.
  intros [Hs1 Ht1] [Hs2 Ht2]. split; [congruence|].
  by rewrite Ht2, Ht1, app_assoc.
Qed.

#[local] Hint Resolve added_refl : core.

(** ** The operations on the socket *)

Lemma wp_is_set s :
  wp is_set
     (λ b s', added s [] s'
              ∧ (b = true → stop_clock s' = Some 0)
              ∧ (stop_clock s = Some 0 → b = true))
     (λ _ _, False) s.
Proof.
  unfold wp, is_set. destruct s as [srv so [[|c]|] acc con tr]; simpl;
    repeat split; simpl; try done; by rewrite app_nil_r.
Qed.

Lemma wp_sock_settimeout t s :
  wp (sock_settimeout t) (λ _ s', added s [] s' ∧ is_Some (sock s'))
     (λ oe s', oe = Some AttributeError ∧ s' = s) s.
Proof.
  unfold wp, sock_settimeout. step_state.
  destruct s as [srv [so|] clk acc con tr]; simpl; [|done].
  split; [|done]. split; simpl; [done|by rewrite app_nil_r].
Qed.

Lemma wp_sock_recv n s :
  wp (sock_recv n) (λ _ s', added s [] s' ∧ is_Some (sock s'))
     (λ oe s', added s [] s'
               ∧ (oe = Some ConnectionError → is_Some (sock s'))) s.
Proof.
  unfold wp, sock_recv. step_state.
  destruct s as [srv [[[] tmo evs]|] clk acc con tr]; simpl; [| |].
  - destruct (recv_events _ _ _) as [[] evs']; simpl;
      repeat split; simpl; try done; by rewrite app_nil_r.
  - split; [done|]. done.
  - split; [done|]. done.
Qed.

(** [self.sock.close()] and [self.sock = None]. *)
Lemma wp_close_forget {A} (a : A) s :
  is_Some (sock s) →
  wp (bind sock_close (λ _, bind (modify (set_sock None)) (λ _, ret a)))
     (λ a' s', a' = a ∧ added s [EvClose] s') (λ _ _, False) s.
Proof.
  intros [so Hso]. unfold wp. step_state.
  destruct s as [srv so' clk acc con tr]; simpl in *. subst so'. simpl.
  split; [done|]. by split.
Qed.

Lemma wp_publish self item s :
  wp (publish self item)
     (λ _ s', (∃ t, added s t s' ∧ no_close t) ∧ sock s' = sock s)
     (λ _ _, False) s.
Proof.
  unfold wp, publish. step_state. split; [|done].
  eexists. split; [by split|].
  unfold no_close. intros Hin.
  apply list_elem_of_fmap in Hin as (c & Hc & _). done.
Qed.

(** ** What a fetch step adds to the trace *)

(** The payload loop closes the connection exactly when it makes the method
    return, and then the method returns [False]. *)
Lemma wp_read_payload (fuel : nat) :
  ∀ (bytes_to_read bytes_read : Z) (data : bytes) (s : State),
  wp (read_payload fuel bytes_to_read bytes_read data)
     (λ r s', match r with
              | inl b => b = false ∧ added s [EvClose] s'
              | inr _ => added s [] s'
              end)
     (λ oe s', added s [] s'
               ∧ (oe = Some ConnectionError → is_Some (sock s'))) s.
Proof.
  induction fuel as [|fuel IH]; intros n br data s; cbn [read_payload];
    (destruct (br <? n)%Z; [|by apply wp_ret]);
    apply wp_bind; (eapply wp_mono; [apply wp_is_set| |done]);
    intros stopped s1 (Hadd1 & _ & _);
    (destruct stopped; [by apply wp_ret|]).
  - done.
  - apply wp_bind. eapply wp_mono; [apply wp_sock_recv| |].
    + intros tmp_data s2 [Hadd2 Hsome].
      pose proof (added_trans _ _ _ _ _ Hadd1 Hadd2) as Hadd. simpl in Hadd.
      destruct tmp_data as [|b tmp].
      * eapply wp_mono; [by apply wp_close_forget| |done].
        intros r s3 [-> Hadd3]. split; [done|].
        apply (added_trans _ _ _ _ _ Hadd Hadd3).
      * eapply wp_mono; [apply IH| |].
        -- intros [b'|r] s3; simpl.
           ++ intros [-> Hadd3]. split; [done|].
              apply (added_trans _ _ _ _ _ Hadd Hadd3).
           ++ intros Hadd3. apply (added_trans _ _ _ _ _ Hadd Hadd3).
        -- intros oe s3 [Hadd3 Hconn]. split; [|done].
           apply (added_trans _ _ _ _ _ Hadd Hadd3).
    + intros oe s2 [Hadd2 Hconn]. split; [|done].
      apply (added_trans _ _ _ _ _ Hadd1 Hadd2).
Qed.

Lemma no_close_nil : no_close [].
Proof. intros H. by apply elem_of_nil in H. Qed.

#[local] Hint Resolve no_close_nil : core.

Ltac wp_step spec :=
  apply wp_bind; eapply wp_mono; [apply spec| |].

Lemma wp_after_header (self : TcpSourceSink) (header_bytes : bytes) (s s1 : State) :
  added s [] s1 →
  wp (after_header self header_bytes) (fetch_returns s) (fetch_raises s) s1.
Proof.
  intros Hadd1. unfold after_header.
  wp_step wp_sock_settimeout.
  - intros _ s2 [Hadd2 _].
    pose proof (added_trans _ _ _ _ _ Hadd1 Hadd2) as Hadd. simpl in Hadd.
    wp_step wp_read_payload.
    + intros [b|[bytes_read data]] s3; simpl.
      * intros [-> Hadd3]. apply wp_ret.
        apply (added_trans _ _ _ _ _ Hadd Hadd3).
      * intros Hadd3.
        pose proof (added_trans _ _ _ _ _ Hadd Hadd3) as Hadd'.
        simpl in Hadd'.
        assert (wp (if bool_decide (bytes_read =
                          get_message_size (tcp_header self) header_bytes)
                    then publish self
                           (if (0 <? header_length (tcp_header self))%Z
                            then if keep_header_data self
                                 then header_bytes ++ data else data
                            else data)
                    else ret ())
                   (λ _ s', ∃ t, added s t s' ∧ no_close t)
                   (λ _ _, False) s3) as Hpub.
        { destruct (bool_decide _).
          - eapply wp_mono; [apply wp_publish| |done].
            intros _ s4 [(t & Hadd4 & Ht) _]. exists t. split; [|done].
            apply (added_trans _ _ _ _ _ Hadd' Hadd4).
          - apply wp_ret. by exists []. }
        apply wp_bind. eapply wp_mono; [apply Hpub| |done].
        intros _ s4 (t & Hadd4 & Ht).
        wp_step wp_sock_settimeout.
        -- intros _ s5 [Hadd5 _]. apply wp_ret. exists t. split; [|done].
           pose proof (added_trans _ _ _ _ _ Hadd4 Hadd5) as H5.
           by rewrite app_nil_r in H5.
        -- intros oe s5 [-> ->]. split; [by exists t|done].
    + intros oe s3 [Hadd3 Hconn].
      pose proof (added_trans _ _ _ _ _ Hadd Hadd3) as Hadd'.
      split; [by exists []|]. intros Hoe. split; [done|by apply Hconn].
  - intros oe s2 [-> ->]. split; [by exists []|done].
Qed.

(** A fetch step that returns [False] has closed the connection and done
    nothing else that can be seen; one that returns [True], raises or blocks
    has not closed it. *)
Lemma wp_get_next_item (self : TcpSourceSink) (s : State) :
  wp (get_next_item self) (fetch_returns s)
     (λ _ s', ∃ t, added s t s' ∧ no_close t) s.
Proof.
  unfold get_next_item. apply wp_try_except.
  eapply wp_mono with (Q := fetch_returns s) (E := fetch_raises s); [|done|].
  - unfold get_next_item_body. wp_step wp_sock_settimeout.
    + intros _ s1 [Hadd1 _].
      destruct (0 <? header_length (tcp_header self))%Z;
        [|by apply wp_after_header].
      wp_step wp_sock_recv.
      * intros header_bytes s2 [Hadd2 Hsome].
        pose proof (added_trans _ _ _ _ _ Hadd1 Hadd2) as Hadd. simpl in Hadd.
        destruct header_bytes as [|b hb]; [|by apply wp_after_header].
        eapply wp_mono; [by apply wp_close_forget| |done].
        intros r s3 [-> Hadd3]. apply (added_trans _ _ _ _ _ Hadd Hadd3).
      * intros oe s2 [Hadd2 Hconn].
        pose proof (added_trans _ _ _ _ _ Hadd1 Hadd2) as Hadd.
        split; [by exists []|]. intros Hoe. split; [done|by apply Hconn].
    + intros oe s1 [-> ->]. split; [by exists []|done].
  - intros [e|] s1 [Hany Hconn]; [|done].
    destruct e; cbn [get_next_item_handler]; try done.
    destruct (Hconn eq_refl) as [Hadd Hsome].
    eapply wp_mono; [by apply wp_close_forget| |done].
    intros r s2 [-> Hadd2]. apply (added_trans _ _ _ _ _ Hadd Hadd2).
Qed.

(** ** Accepting and connecting *)

Lemma no_close_app t1 t2 : no_close t1 → no_close t2 → no_close (t1 ++ t2).
Proof. unfold no_close. rewrite elem_of_app. tauto. Qed.

Lemma no_close_cons e t : e ≠ EvClose → no_close t → no_close (e :: t).
Proof. unfold no_close. rewrite elem_of_cons. intros ? ? [?|?]; auto. Qed.

Lemma wp_accept s :
  wp accept (λ _ s', ∃ a, added s [EvAccept a] s')
     (λ oe s', (oe = Some AttributeError ∧ s' = s)
               ∨ (oe ≠ Some AttributeError ∧ ∃ a, added s [EvAccept a] s')) s.
Proof.
  unfold wp, accept. step_state.
  destruct s as [[srv|] so clk [|a acc] con tr]; simpl; [| | |].
  - right. split; [done|]. by exists TimedOut.
  - destruct a; simpl.
    + by eexists.
    + right. split; [done|]. by eexists.
    + right. split; [done|]. by eexists.
  - by left.
  - by left.
Qed.

(** One turn of an accept loop, [try: accept; break; except ...: pass]: when
    it goes on, an [accept] has been made. *)
Lemma wp_try_accept oserror_too s :
  wp (try_except (bind accept (λ _, ret true)) (pass_on oserror_too))
     (λ _ s', ∃ a, added s [EvAccept a] s')
     (λ _ s', s' = s ∨ ∃ a, added s [EvAccept a] s') s.
Proof.
  apply wp_try_except. wp_step wp_accept.
  - intros [] s1 Ha. by apply wp_ret.
  - intros [e|] s1 [[Hoe ->]|[Hoe Ha]]; try done.
    + injection Hoe as ->. by left.
    + destruct e; simpl; try (by right); try done.
      destruct oserror_too; simpl; [done|by right].
    + by right.
Qed.

Lemma wp_accept_loop oserror_too (fuel : nat) : ∀ s,
  wp (accept_loop oserror_too fuel)
     (λ _ s', ∃ t, added s t s' ∧ accepts_only t
                   ∧ (t = [] → stop_clock s' = Some 0))
     (λ _ s', ∃ t, added s t s' ∧ accepts_only t) s.
Proof.
  assert (accepts_only []) as Hnil by (intros e H; by apply elem_of_nil in H).
  assert (∀ a t, accepts_only t → accepts_only ([EvAccept a] ++ t)) as Hcons.
  { intros a t Ht e [->|He]%elem_of_cons; [by eexists|by apply Ht]. }
  induction fuel as [|fuel IH]; intros s; [done|]. cbn [accept_loop].
  wp_step wp_is_set; [|done].
  intros stopped s1 (Hadd1 & Hstop & _).
  destruct stopped.
  { apply wp_ret. exists []. auto. }
  wp_step wp_try_accept.
  - intros done s2 [a Hadd2].
    pose proof (added_trans _ _ _ _ _ Hadd1 Hadd2) as Hadd. simpl in Hadd.
    destruct done.
    + apply wp_ret. exists [EvAccept a]. split; [done|]. split; [|done].
      apply (Hcons a []), Hnil.
    + eapply wp_mono; [apply IH| |].
      * intros _ s3 (t & Hadd3 & Ht & _). exists ([EvAccept a] ++ t).
        split; [apply (added_trans _ _ _ _ _ Hadd Hadd3)|]. split; [auto|done].
      * intros _ s3 (t & Hadd3 & Ht). exists ([EvAccept a] ++ t).
        split; [apply (added_trans _ _ _ _ _ Hadd Hadd3)|auto].
  - intros _ s2 [->|[a Hadd2]].
    + exists []. auto.
    + exists [EvAccept a]. split.
      * apply (added_trans _ _ _ _ _ Hadd1 Hadd2).
      * apply (Hcons a []), Hnil.
Qed.

Lemma wp_connect self s :
  wp (connect self) (λ _ s', ∃ t, added s t s' ∧ no_close t)
     (λ _ s', ∃ t, added s t s' ∧ no_close t) s.
Proof.
  assert (∀ a, no_close [EvConnect (ip_address self) (port self) a]) as Hc.
  { intros a. by apply no_close_cons. }
  unfold wp, connect. step_state.
  destruct s as [srv [so|] clk [|a acc] [|c con] tr]; simpl;
    try (by exists []; split; [apply added_refl|]);
    try (by eexists; split; [split; simpl; done|apply (Hc TimedOut)]);
    destruct c; simpl; eexists; (split; [split; simpl; done|apply Hc]).
Qed.

Lemma wp_connect_loop self (fuel : nat) : ∀ s,
  wp (connect_loop self fuel) (λ _ s', ∃ t, added s t s' ∧ no_close t)
     (λ _ s', ∃ t, added s t s' ∧ no_close t) s.
Proof.
  induction fuel as [|fuel IH]; intros s; [done|]. cbn [connect_loop].
  wp_step wp_is_set; [|done].
  intros stopped s1 (Hadd1 & _ & _).
  destruct stopped; [apply wp_ret; by exists []|].
  apply wp_bind. apply wp_try_except. wp_step wp_connect.
  - intros [] s2 (t2 & Hadd2 & Ht2).
    pose proof (added_trans _ _ _ _ _ Hadd1 Hadd2) as Hadd. simpl in Hadd.
    apply wp_ret. apply wp_ret. by exists t2.
  - intros [e|] s2 (t2 & Hadd2 & Ht2);
      pose proof (added_trans _ _ _ _ _ Hadd1 Hadd2) as Hadd; simpl in Hadd;
      [|by exists t2].
    assert (wp (connect_loop self fuel)
               (λ _ s', ∃ t, added s t s' ∧ no_close t)
               (λ _ s', ∃ t, added s t s' ∧ no_close t) s2) as Hgo.
    { eapply wp_mono; [apply IH| |];
        intros _ s3 (t3 & Hadd3 & Ht3); exists (t2 ++ t3);
        (split; [apply (added_trans _ _ _ _ _ Hadd Hadd3)|by apply no_close_app]). }
    destruct e; simpl; try (by exists t2); exact Hgo.
Qed.

(** ** Initialization and recovery *)

Lemma accepts_only_no_close t : accepts_only t → no_close t.
Proof. intros Ht Hin. by destruct (Ht _ Hin). Qed.

(** What [initialize] does before it enters its loop. *)
Lemma initialize_server_loop self fuel s :
  is_server self = true →
  initialize self fuel s =
  accept_loop true fuel
    {| server_sock := Some (listening_socket self); sock := sock s;
       stop_clock := stop_clock s; accepts := accepts s;
       connects := connects s;
       trace := trace s
         ++ [EvSocket; EvBindListen (ip_address self) (port self)] |}.
Proof.
  intros Hserver. unfold initialize. rewrite Hserver.
  unfold server_settimeout, server_bind_listen. step_state.
  by rewrite <- app_assoc.
Qed.

Lemma initialize_client_loop self fuel s :
  is_server self = false →
  initialize self fuel s =
  connect_loop self fuel
    {| server_sock := server_sock s;
       sock := Some {| connected := false; timeout := Some (sock_timeout self);
                       incoming := [] |};
       stop_clock := stop_clock s; accepts := accepts s;
       connects := connects s; trace := trace s ++ [EvSocket] |}.
Proof.
  intros Hclient. unfold initialize. rewrite Hclient. by step_state.
Qed.

(** A client makes a socket and then tries to connect. *)
Lemma wp_initialize_client self fuel s :
  is_server self = false →
  wp (initialize self fuel)
     (λ _ s', ∃ t, added s (EvSocket :: t) s' ∧ no_close t)
     (λ _ s', ∃ t, added s (EvSocket :: t) s' ∧ no_close t) s.
Proof.
  intros Hclient. unfold initialize. rewrite Hclient.
  apply wp_bind, wp_modify, wp_bind, wp_modify.
  set (s1 := set_sock _ _).
  assert (added s [EvSocket] s1) as Hadd1 by (by split).
  wp_step wp_sock_settimeout.
  - intros [] s2 [Hadd2 _].
    pose proof (added_trans _ _ _ _ _ Hadd1 Hadd2) as Hadd. simpl in Hadd.
    eapply wp_mono; [apply wp_connect_loop| |];
      intros _ s3 (t & Hadd3 & Ht); exists t;
      (split; [apply (added_trans _ _ _ _ _ Hadd Hadd3)|done]).
  - intros oe s2 [_ ->]. by exists [].
Qed.

(** A server makes its listening socket and then accepts. *)
Lemma wp_initialize_server self fuel s :
  is_server self = true →
  wp (initialize self fuel)
     (λ _ s', server_sock s' = Some (listening_socket self)
              ∧ ∃ t, trace s' = trace s
                       ++ EvSocket :: EvBindListen (ip_address self) (port self) :: t
                     ∧ accepts_only t)
     (λ _ s', server_sock s' = Some (listening_socket self)
              ∧ ∃ t, trace s' = trace s
                       ++ EvSocket :: EvBindListen (ip_address self) (port self) :: t
                     ∧ accepts_only t) s.
Proof.
  intros Hserver.
  set (s1 := {| server_sock := Some (listening_socket self); sock := sock s;
                stop_clock := stop_clock s; accepts := accepts s;
                connects := connects s;
                trace := trace s
                  ++ [EvSocket; EvBindListen (ip_address self) (port self)] |}).
  pose proof (initialize_server_loop self fuel s Hserver) as Hinit.
  fold s1 in Hinit.
  set (P := λ s' : State,
         server_sock s' = Some (listening_socket self)
         ∧ ∃ t, trace s' = trace s
                  ++ EvSocket :: EvBindListen (ip_address self) (port self) :: t
                ∧ accepts_only t).
  change (wp (initialize self fuel) (λ _, P) (λ _, P) s).
  unfold wp. rewrite Hinit.
  apply (wp_mono (accept_loop true fuel) _ (λ _, P) _ (λ _, P) s1
           (wp_accept_loop true fuel s1)); subst P; cbv beta.
  - intros _ s2 (t & [Hsrv2 Htr2] & Ht & _). split; [by rewrite Hsrv2|].
    exists t. split; [|done]. rewrite Htr2. subst s1; simpl.
    by rewrite <- app_assoc.
  - intros _ s2 (t & [Hsrv2 Htr2] & Ht). split; [by rewrite Hsrv2|].
    exists t. split; [|done]. rewrite Htr2. subst s1; simpl.
    by rewrite <- app_assoc.
Qed.

(** After a fetch step that has returned [False], [run] makes a client
    initialize again and a server accept again, on the listening socket it
    has. *)
Lemma wp_recover self fuel s :
  wp (recover self fuel)
     (λ _ s', ∃ t, added s t s' ∧ no_close t ∧ follows_close (is_server self) t
                   ∧ (t = [] → stop_clock s' = Some 0))
     (λ _ s', ∃ t, added s t s' ∧ no_close t ∧ follows_close (is_server self) t) s.
Proof.
  unfold recover. destruct (is_server self) eqn:Hrole; simpl.
  - eapply wp_mono; [apply wp_accept_loop| |].
    + intros _ s1 (t & Hadd & Ht & Hstop). exists t.
      split; [done|]. split; [by apply accepts_only_no_close|]. split; [|done].
      destruct t as [|e t]; [done|].
      destruct (Ht e) as [a ->]; [by left|done].
    + intros _ s1 (t & Hadd & Ht). exists t.
      split; [done|]. split; [by apply accepts_only_no_close|].
      destruct t as [|e t]; [done|].
      destruct (Ht e) as [a ->]; [by left|done].
  - eapply wp_mono; [by apply wp_initialize_client| |].
    + intros _ s1 (t & Hadd & Ht). exists (EvSocket :: t).
      split; [done|]. split; [by apply no_close_cons|]. done.
    + intros _ s1 (t & Hadd & Ht). exists (EvSocket :: t).
      split; [done|]. split; [by apply no_close_cons|]. done.
Qed.

(** ** The run loop *)

Lemma recovered_app b t1 t2 :
  no_close t1 → recovered b t2 → recovered b (t1 ++ t2).
Proof.
  induction t1 as [|e t1 IH]; intros Hno Ht2; [done|].
  assert (no_close t1) as Hno1 by (intros ?; apply Hno; by right).
  destruct e; simpl; auto.
  exfalso. apply Hno. by left.
Qed.

Lemma recovered_no_close b t : no_close t → recovered b t.
Proof. intros Hno. rewrite <- (app_nil_r t). by apply recovered_app. Qed.

Lemma follows_close_app b t t' :
  follows_close b t → (t = [] → t' = []) → follows_close b (t ++ t').
Proof.
  destruct t as [|e t]; [|done]. intros Hb Hnil. by rewrite Hnil.
Qed.

(** The loop of [run] returns only when it has read the stop flag as set, and
    whatever its outcome, each closing of the connection in what it has done
    has been followed by the recovery. *)
Lemma wp_run_loop self (fuel : nat) : ∀ s,
  wp (run_loop self fuel)
     (λ _ s', stop_clock s' = Some 0
              ∧ ∃ t, added s t s' ∧ recovered (is_server self) t
                     ∧ (stop_clock s = Some 0 → t = []))
     (λ _ s', ∃ t, added s t s' ∧ recovered (is_server self) t
                   ∧ (stop_clock s = Some 0 → t = [])) s.
Proof.
  induction fuel as [|fuel IH]; intros s; [done|]. cbn [run_loop].
  wp_step wp_is_set; [|done].
  intros stopped s1 (Hadd1 & Hstop & Hset).
  destruct stopped.
  { apply wp_ret. split; [auto|]. exists []. split; [exact Hadd1|]. split; [exact I|done]. }
  assert (stop_clock s ≠ Some 0) as Hunset by (intros H; by specialize (Hset H)).
  wp_step wp_get_next_item.
  - intros ok s2 Hfetch. destruct ok; simpl in Hfetch |- *.
    + destruct Hfetch as (t2 & Hadd2 & Ht2).
      pose proof (added_trans _ _ _ _ _ Hadd1 Hadd2) as Hadd. simpl in Hadd.
      apply wp_bind, wp_ret.
      eapply wp_mono; [apply IH| |].
      * intros _ s3 (Hstop3 & t3 & Hadd3 & Ht3 & _). split; [done|].
        exists (t2 ++ t3). split; [apply (added_trans _ _ _ _ _ Hadd Hadd3)|].
        split; [by apply recovered_app|done].
      * intros _ s3 (t3 & Hadd3 & Ht3 & _).
        exists (t2 ++ t3). split; [apply (added_trans _ _ _ _ _ Hadd Hadd3)|].
        split; [by apply recovered_app|done].
    + pose proof (added_trans _ _ _ _ _ Hadd1 Hfetch) as Hadd. simpl in Hadd.
      wp_step wp_recover.
      * intros [] s3 (t3 & Hadd3 & Ht3 & Hfollow & Hnil).
        pose proof (added_trans _ _ _ _ _ Hadd Hadd3) as Hadd'.
        eapply wp_mono; [apply IH| |].
        -- intros _ s4 (Hstop4 & t4 & Hadd4 & Ht4 & Hnil4). split; [done|].
           exists ([EvClose] ++ t3 ++ t4).
           split; [by rewrite app_assoc; apply (added_trans _ _ _ _ _ Hadd' Hadd4)|].
           split; [|done]. simpl. split.
           ++ apply follows_close_app; auto.
           ++ by apply recovered_app.
        -- intros _ s4 (t4 & Hadd4 & Ht4 & Hnil4).
           exists ([EvClose] ++ t3 ++ t4).
           split; [by rewrite app_assoc; apply (added_trans _ _ _ _ _ Hadd' Hadd4)|].
           split; [|done]. simpl. split.
           ++ apply follows_close_app; auto.
           ++ by apply recovered_app.
      * intros _ s3 (t3 & Hadd3 & Ht3 & Hfollow).
        exists ([EvClose] ++ t3).
        split; [apply (added_trans _ _ _ _ _ Hadd Hadd3)|].
        split; [|done]. simpl. split; [done|by apply recovered_no_close].
  - intros _ s2 (t2 & Hadd2 & Ht2).
    exists t2. split; [apply (added_trans _ _ _ _ _ Hadd1 Hadd2)|].
    split; [by apply recovered_no_close|done].
Qed.

Lemma wp_run self (fuel : nat) s :
  wp (run self fuel)
     (λ _ s', stop_clock s' = Some 0 ∧ run_recovered self s s')
     (λ _ s', run_recovered self s s') s.
Proof.
  unfold run. destruct (is_server self) eqn:Hrole.
  - wp_step wp_initialize_server; [done| |].
    + intros [] s1 (Hsrv & t1 & Htr1 & Ht1).
      assert (no_close (EvSocket :: EvBindListen (ip_address self) (port self) :: t1))
        as Hno by (do 2 (apply no_close_cons; [done|]);
                   by apply accepts_only_no_close).
      eapply wp_mono; [apply wp_run_loop| |].
      * intros _ s2 (Hstop & t2 & [Hsrv2 Htr2] & Ht2 & _). split; [done|].
        split; [|by intros _; rewrite Hsrv2]. eexists. split.
        -- by rewrite Htr2, Htr1, <- app_assoc.
        -- by apply recovered_app.
      * intros _ s2 (t2 & [Hsrv2 Htr2] & Ht2 & _).
        split; [|by intros _; rewrite Hsrv2]. eexists. split.
        -- by rewrite Htr2, Htr1, <- app_assoc.
        -- by apply recovered_app.
    + intros _ s1 (Hsrv & t1 & Htr1 & Ht1). split; [|done].
      eexists. split; [done|]. apply recovered_no_close.
      do 2 (apply no_close_cons; [done|]). by apply accepts_only_no_close.
  - wp_step wp_initialize_client; [done| |].
    + intros [] s1 (t1 & [Hsrv1 Htr1] & Ht1).
      eapply wp_mono; [apply wp_run_loop| |].
      * intros _ s2 (Hstop & t2 & [Hsrv2 Htr2] & Ht2 & _). split; [done|].
        split; [|by rewrite Hrole]. eexists. split.
        -- by rewrite Htr2, Htr1, <- app_assoc.
        -- apply recovered_app; [|done].
           by apply no_close_cons.
      * intros _ s2 (t2 & [Hsrv2 Htr2] & Ht2 & _).
        split; [|by rewrite Hrole]. eexists. split.
        -- by rewrite Htr2, Htr1, <- app_assoc.
        -- apply recovered_app; [|done].
           by apply no_close_cons.
    + intros _ s1 (t1 & [Hsrv1 Htr1] & Ht1). split; [|by rewrite Hrole].
      eexists. split; [done|]. apply recovered_no_close.
      by apply no_close_cons.
Qed.

(** When [run] returns, the thread has read the stop flag as set.  In what
    it has done until then, every closing of the connection, which is
    what a fetch step does when the peer has disconnected, was followed at
    once by the recovery: a client made a new socket, the start of its connect
    sequence; a server accepted again, unless it read the stop flag as set
    first, and the listening socket it holds at the end is the one it made at
    the start. *)
Lemma run_returns_only_when_stopped (self : TcpSourceSink) (fuel : nat)
    (s s' : State) :
  run self fuel s = Return tt s' →
  stop_clock s' = Some 0
  ∧ (∃ t, trace s' = trace s ++ t ∧ recovered (is_server self) t)
  ∧ (is_server self = true → server_sock s' = Some (listening_socket self)).
Proof.
  intros Hrun. pose proof (wp_run self fuel s) as H.
  unfold wp in H. rewrite Hrun in H. destruct H as (Hstop & Ht & Hsrv). done.
Qed.

(** A run that ends because of an exception, or that blocks, has recovered
    from every disconnection before. *)
Lemma run_raises_after_recovery (self : TcpSourceSink) (fuel : nat)
    (s s' : State) (e : exn) :
  run self fuel s = Raise e s' ∨ run self fuel s = Blocked s' →
  run_recovered self s s'.
Proof.
  intros Hrun. pose proof (wp_run self fuel s) as H.
  unfold wp in H. by destruct Hrun as [Hrun|Hrun]; rewrite Hrun in H.
Qed.

(** A client whose peer sends one message and closes: the node connects
    again, at the second attempt, and runs until it is stopped. *)
Lemma run_returns_only_when_stopped_example :
  ∃ s',
    run (example_node false true) 20 reconnect_scenario = Return tt s'
    ∧ stop_clock s' = Some 0
    ∧ (∃ t, trace s' = trace reconnect_scenario ++ t ∧ recovered false t)
    ∧ trace s' =
      [EvSocket;
       EvConnect "127.0.0.1" 5000 (Established [Seg [x00; x01; xaa]; Fin]);
       EvNotify (Notify 9 1 [x00; x01; xaa]);
       EvClose;
       EvSocket;
       EvConnect "127.0.0.1" 5000 TimedOut;
       EvConnect "127.0.0.1" 5000 (Established [Idle])].
Proof.
  eexists. split; [vm_compute; reflexivity|].
  split; [|split; [|reflexivity]].
  - eapply (run_returns_only_when_stopped (example_node false true) 20
              reconnect_scenario).
    vm_compute. reflexivity.
  - eapply (run_returns_only_when_stopped (example_node false true) 20
              reconnect_scenario).
    vm_compute. reflexivity.
Defined.

(** ** A server after a failed [accept] *)

(** C4.  A server whose first client sends one message and resets the
    connection.  The fetch step closes the socket and the server accepts again
    on its listening socket; that [accept] times out, and the next one fails
    with an [OSError] that is no timeout.  The loop of [run] that accepts
    again has a handler for [socket.timeout] alone, so the exception ends the
    thread, although nobody has set the stop flag and a further client is
    waiting.  The same failure of an [accept] in the loop of [initialize],
    which has a handler for [OSError] too, is passed over: the server accepts
    the next client, and its thread ends when the stop flag is set. *)
Theorem server_thread_ends_on_accept_error :
  (∃ s',
     run (example_node true false) 20 accept_error_scenario = Raise OSError s'
     ∧ stop_clock s' = Some 3
     ∧ accepts s' = [Established [Idle]]
     ∧ server_sock s' = Some (listening_socket (example_node true false))
     ∧ trace s' =
       [EvSocket; EvBindListen "127.0.0.1" 5000;
        EvAccept (Established [Seg [x00; x01; xaa]; Rst]);
        EvNotify (Notify 9 1 [xaa]);
        EvClose; EvAccept TimedOut; EvAccept Failed])
  ∧ (∃ s',
       run (example_node true false) 20 accept_error_at_start = Return tt s'
       ∧ stop_clock s' = Some 0
       ∧ trace s' =
         [EvSocket; EvBindListen "127.0.0.1" 5000;
          EvAccept Failed; EvAccept (Established [Idle])]).
Proof.
  split; eexists; (split; [vm_compute; reflexivity|]); by repeat split.
Qed.

(** ** The send path *)

(** With no socket, [notify] drops the item: it returns and nothing has
    changed. *)
Lemma notify_without_socket (self : TcpSourceSink) (publisher : ObjId)
    (item : bytes) (s : State) :
  sock s = None → notify self publisher item s = Return tt s.
Proof. intros Hs. unfold notify. step_state. by rewrite Hs. Qed.

(** With a connected socket, [notify] passes the item to [send]. *)
Lemma notify_connected (self : TcpSourceSink) (publisher : ObjId)
    (item : bytes) (s : State) (so : Socket) :
  sock s = Some so → connected so = true →
  notify self publisher item s = Return tt (emit [EvSend item] s).
Proof.
  intros Hs Hc. destruct s as [srv so' clk acc con tr].
  simpl in Hs. subst so'. unfold notify. step_state. by rewrite Hc.
Qed.

(** With a socket that is not connected, [notify] passes the item to [send]
    all the same, and the error of [send] reaches the caller. *)
Lemma notify_unconnected (self : TcpSourceSink) (publisher : ObjId)
    (item : bytes) (s : State) (so : Socket) :
  sock s = Some so → connected so = false →
  notify self publisher item s = Raise OSError s.
Proof.
  intros Hs Hc. destruct s as [srv so' clk acc con tr].
  simpl in Hs. subst so'. unfold notify. step_state. by rewrite Hc.
Qed.

(** C8.  A client whose peer cannot be reached, stopped before any attempt to
    connect has succeeded: [initialize] has made the socket, so [self.sock] is
    not [None] although no connection is held, and [notify] does not drop the
    item: it calls [send] on the socket, which raises to the publisher. *)
Theorem notify_before_connection_raises :
  ∃ s',
    run (example_node false true) 20 unreachable_peer = Return tt s'
    ∧ sock s' = Some {| connected := false; timeout := Some 1; incoming := [] |}
    ∧ trace s' = [EvSocket; EvConnect "127.0.0.1" 5000 TimedOut;
                  EvConnect "127.0.0.1" 5000 TimedOut]
    ∧ notify (example_node false true) 7 [x01] s' = Raise OSError s'.
Proof.
  eexists. split; [vm_compute; reflexivity|].
  split; [reflexivity|]. split; [reflexivity|].
  eapply notify_unconnected; reflexivity.
Qed.

(** A server before its first client has no socket, and drops the item. *)
Lemma notify_before_accept_drops :
  ∃ s',
    run (example_node true true) 20 unreachable_peer = Return tt s'
    ∧ sock s' = None
    ∧ notify (example_node true true) 7 [x01] s' = Return tt s'.
Proof.
  eexists. split; [vm_compute; reflexivity|]. split; [reflexivity|].
  by apply notify_without_socket.
Qed.

(** ** Messages sent back to back *)

Lemma pending_cons (b : byte) (data : bytes) (evs : list NetEvent) :
  pending (b :: data) evs = Seg (b :: data) :: evs.
Proof. reflexivity. Qed.

(** A fetch step on a connection on which a whole message has arrived, with
    whatever follows it in the same segment: it takes the message, leaves what
    follows, and publishes the item of the message. *)
Lemma fetch_first_message (self : TcpSourceSink) (h p rest : bytes)
    (evs : list NetEvent) (srv : option ServerSocket) (t0 : option nat) (c : nat)
    (acc con : list Attempt) (tr : list Event) :
  (0 < header_length (tcp_header self))%Z →
  well_framed self (h, p) →
  get_next_item self
    {| server_sock := srv;
       sock := Some {| connected := true; timeout := t0;
                       incoming := pending (h ++ p ++ rest) evs |};
       stop_clock := Some (match p with [] => c | _ => S c end);
       accepts := acc; connects := con; trace := tr |}
  = Return true
      {| server_sock := srv;
         sock := Some {| connected := true; timeout := Some (sock_timeout self);
                         incoming := pending rest evs |};
         stop_clock := Some c; accepts := acc; connects := con;
         trace := tr ++ publication self (item_of_message self (h, p)) |}.
Proof.
  intros HH [Hlen Hsize]. simpl in Hlen, Hsize.
  destruct h as [|b h0] eqn:Hh; [simpl in Hlen; lia|]. rewrite <- Hh in *.
  assert (recv_events false (Z.to_nat (header_length (tcp_header self)))
            (pending (h ++ p ++ rest) evs) = (RecvData h, pending (p ++ rest) evs))
    as Hrecv.
  { rewrite <- Hlen, Nat2Z.id.
    assert (h ++ p ++ rest = b :: (h0 ++ p ++ rest)) as -> by (by rewrite Hh).
    rewrite pending_cons, recv_events_segment.
    assert (b :: h0 ++ p ++ rest = h ++ p ++ rest) as -> by (by rewrite Hh).
    rewrite take_app_length, drop_app_length.
    unfold pending. by destruct (p ++ rest). }
  unfold get_next_item, try_except, get_next_item_body.
  apply Z.ltb_lt in HH. rewrite HH. step_state.
  rewrite Hrecv, Hh, <- Hh.
  unfold after_header, publication, item_of_message.
  rewrite Hsize, HH, Nat2Z.id. step_state.
  destruct p as [|b1 p1] eqn:Hp.
  - simpl. step_state. reflexivity.
  - rewrite <- Hp in *.
    assert (length p = S (length p1)) as Hlenp by (by rewrite Hp).
    rewrite Hlenp. cbn [read_payload]. rewrite <- Hlenp.
    rewrite (proj2 (Z.ltb_lt 0 (Z.of_nat (length p)))) by lia.
    unfold is_set. step_state.
    rewrite Z.sub_0_r, Nat2Z.id.
    assert (recv_events true (length p) (pending (p ++ rest) evs)
            = (RecvData p, pending rest evs)) as ->.
    { assert (p ++ rest = b1 :: (p1 ++ rest)) as -> by (by rewrite Hp).
      rewrite pending_cons. cbn [recv_events].
      assert (b1 :: p1 ++ rest = p ++ rest) as -> by (by rewrite Hp).
      rewrite take_app_length, drop_app_length.
      unfold pending. by destruct rest. }
    assert (read_payload (length p1) (Z.of_nat (length p))
              (0 + Z.of_nat (length p)) ([] ++ p)
            = ret (inr (Z.of_nat (length p), p))) as Hrun.
    { destruct (length p1); cbn [read_payload];
        by rewrite Z.add_0_l, Z.ltb_irrefl. }
    rewrite Hp in Hrun |- *. step_state. rewrite Hrun. step_state.
    rewrite bool_decide_eq_true_2 by done. reflexivity.
Qed.

(** X9.  Messages that have arrived back to back in one segment, each with a
    header from which the strategy finds the size of its payload: the loop of
    [run] takes them apart and publishes one item per message, in the order
    in which they were sent, and nothing else; it returns when the stop flag
    is set, after the last of them, and leaves what follows them on the
    connection. *)
Theorem coalesced_messages_are_split (self : TcpSourceSink)
    (msgs : list Message) : ∀ (fuel : nat) (evs : list NetEvent)
    (srv : option ServerSocket) (acc con : list Attempt) (tr : list Event),
  (0 < header_length (tcp_header self))%Z →
  Forall (well_framed self) msgs →
  length msgs < fuel →
  run_loop self fuel
    {| server_sock := srv;
       sock := Some {| connected := true; timeout := Some (sock_timeout self);
                       incoming := pending (wire msgs) evs |};
       stop_clock := Some (flag_reads msgs);
       accepts := acc; connects := con; trace := tr |}
  = Return tt
      {| server_sock := srv;
         sock := Some {| connected := true; timeout := Some (sock_timeout self);
                         incoming := evs |};
         stop_clock := Some 0; accepts := acc; connects := con;
         trace := tr ++ mjoin (publication self <$>
                                 (item_of_message self <$> msgs)) |}.
Proof.
  induction msgs as [|[h p] msgs IH]; intros fuel evs srv acc con tr HH Hall Hfuel.
  - destruct fuel as [|fuel]; [simpl in Hfuel; lia|].
    simpl. by rewrite app_nil_r.
  - destruct fuel as [|fuel]; [simpl in Hfuel; lia|].
    apply Forall_cons in Hall as [Hm Hall].
    cbn [run_loop]. unfold bind at 1, is_set. cbn [stop_clock flag_reads snd].
    assert (∃ c, match p with [] => 1 + flag_reads msgs | _ => 2 + flag_reads msgs end
                 = S c
                 ∧ c = match p with [] => flag_reads msgs | _ => S (flag_reads msgs) end)
      as (c & -> & ->) by (destruct p; by eexists).
    unfold set_stop_clock. cbn [server_sock sock accepts connects trace].
    unfold bind at 1.
    change (wire ((h, p) :: msgs)) with ((h ++ p) ++ wire msgs).
    rewrite <- app_assoc.
    rewrite (fetch_first_message self h p (wire msgs) evs srv _ (flag_reads msgs))
      by done.
    cbn [negb]. unfold bind at 1, ret at 1.
    rewrite IH by (try done; simpl in Hfuel; lia).
    rewrite !fmap_cons. cbn [mjoin list_join]. by rewrite <- app_assoc.
Qed.

Lemma coalesced_messages_are_split_example :
  run_loop (example_node false true) 5
    {| server_sock := None;
       sock := Some {| connected := true;
                       timeout := Some (sock_timeout (example_node false true));
                       incoming := pending (wire three_messages) [Idle] |};
       stop_clock := Some (flag_reads three_messages);
       accepts := []; connects := []; trace := [] |}
  = Return tt
      {| server_sock := None;
         sock := Some {| connected := true;
                         timeout := Some (sock_timeout (example_node false true));
                         incoming := [Idle] |};
         stop_clock := Some 0; accepts := []; connects := [];
         trace := [] ++ mjoin (publication (example_node false true) <$>
                     (item_of_message (example_node false true)
                        <$> three_messages)) |}.
Proof.
  apply (coalesced_messages_are_split (example_node false true) three_messages
           5 [Idle] None [] [] []).
  - reflexivity.
  - repeat constructor.
  - simpl. lia.
Defined.

(** ** A message that does not arrive whole *)

(** A blocking read of up to [n] bytes, when the events carry between one and
    [n] bytes before [tl]. *)
Lemma recv_events_stream_app (n : nat) (evs tl : list NetEvent) (rest : bytes) :
  stream evs = Some rest → rest ≠ [] → length rest ≤ n →
  ∃ data evs' rest',
    recv_events true n (evs ++ tl) = (RecvData data, evs' ++ tl)
    ∧ data ≠ [] ∧ rest = data ++ rest' ∧ stream evs' = Some rest'.
Proof.
  revert rest. induction evs as [|ev evs IH]; intros rest Hs Hne Hlen.
  - simpl in Hs. congruence.
  - destruct ev as [data| | |]; simpl in Hs; try discriminate.
    + destruct (stream evs) as [rest0|] eqn:Hrest0; [|discriminate].
      injection Hs as <-. destruct data as [|b data].
      * simpl. by apply IH.
      * exists (b :: data), evs, rest0.
        rewrite length_app in Hlen.
        rewrite <- app_comm_cons. cbn [recv_events].
        rewrite take_ge, drop_ge by lia. done.
    + simpl. by apply IH.
Qed.

(** A blocking read when the events carry no byte before [tl]: it is the read
    of [tl]. *)
Lemma recv_events_stream_nil (n : nat) (evs tl : list NetEvent) :
  stream evs = Some [] →
  recv_events true n (evs ++ tl) = recv_events true n tl.
Proof.
  induction evs as [|ev evs IH]; intros Hs; [done|].
  destruct ev as [data| | |]; simpl in Hs; try discriminate.
  - destruct (stream evs) as [rest0|] eqn:Hrest0; [|discriminate].
    injection Hs as Hs. apply app_eq_nil in Hs as [-> ->]. simpl. by apply IH.
  - simpl. by apply IH.
Qed.

(** The payload loop, when the connection carries fewer bytes than are still
    to be read, and then [tl], on which a read finds the end of the stream or
    blocks: the loop reads what there is and then ends as that read makes
    it. *)
Lemma read_payload_short (res : RecvResult) (tl tl' : list NetEvent)
    (fuel : nat) :
  ∀ (evs : list NetEvent) (rest : bytes) (bytes_to_read bytes_read : Z)
    (data : bytes) (srv : option ServerSocket) (clk : option nat)
    (acc con : list Attempt) (tr : list Event),
  (∀ n, recv_events true n tl = (res, tl')) →
  res = RecvData [] ∨ res = RecvBlocked →
  stream evs = Some rest →
  (Z.of_nat (length rest) < bytes_to_read - bytes_read)%Z →
  length rest < fuel →
  unset_for (S (length rest)) clk →
  ∃ clk',
    read_payload fuel bytes_to_read bytes_read data
      {| server_sock := srv;
         sock := Some {| connected := true; timeout := None;
                         incoming := evs ++ tl |};
         stop_clock := clk; accepts := acc; connects := con; trace := tr |}
    = match res with
      | RecvData _ =>
          Return (inl false)
            {| server_sock := srv; sock := None; stop_clock := clk';
               accepts := acc; connects := con; trace := tr ++ [EvClose] |}
      | _ =>
          Blocked
            {| server_sock := srv;
               sock := Some {| connected := true; timeout := None;
                               incoming := tl' |};
               stop_clock := clk'; accepts := acc; connects := con;
               trace := tr |}
      end.
Proof.
  induction fuel as [|fuel IH];
    intros evs rest n br data srv clk acc con tr Htl Hres Hs Hn Hfuel Hclk;
    [lia|].
  cbn [read_payload].
  rewrite (proj2 (Z.ltb_lt br n)) by lia.
  assert (∃ clk1, is_set {| server_sock := srv;
                 sock := Some {| connected := true; timeout := None;
                                 incoming := evs ++ tl |};
                 stop_clock := clk; accepts := acc; connects := con;
                 trace := tr |}
          = Return false
              {| server_sock := srv;
                 sock := Some {| connected := true; timeout := None;
                                 incoming := evs ++ tl |};
                 stop_clock := clk1; accepts := acc; connects := con;
                 trace := tr |}
          ∧ unset_for (length rest) clk1) as (clk1 & Hset & Hclk1).
  { unfold is_set; simpl. destruct clk as [[|c]|]; simpl in Hclk.
    - lia.
    - exists (Some c). split; [done|]. simpl. lia.
    - by exists None. }
  unfold bind at 1. rewrite Hset. step_state.
  destruct rest as [|b rest0] eqn:Hrest.
  - rewrite recv_events_stream_nil, Htl by done.
    exists clk1. destruct Hres as [-> | ->]; step_state; reflexivity.
  - rewrite <- Hrest in *.
    assert (rest ≠ []) as Hne by (rewrite Hrest; done).
    destruct (recv_events_stream_app (Z.to_nat (n - br)) evs tl rest Hs Hne)
      as (d & evs1 & rest1 & Hrecv & Hd & Hsplit & Hs1); [lia|].
    assert (length rest = length d + length rest1) as Hlen
      by (rewrite Hsplit at 1; apply length_app).
    assert (0 < length d) as Hdpos by (destruct d; [done|simpl; lia]).
    rewrite Hrecv.
    destruct d as [|b1 d1] eqn:Hdeq; [done|]. rewrite <- Hdeq in *.
    destruct (IH evs1 rest1 n (br + Z.of_nat (length d))%Z (data ++ d)
                 srv clk1 acc con tr) as (clk' & Hrun);
      [done|done|done|lia|lia| |].
    { destruct clk1; simpl in *; lia. }
    exists clk'. rewrite Hdeq in Hrun |- *. step_state. by rewrite Hrun.
Qed.

(** A fetch step on a connection that carries the header and a part of the
    payload, and then [tl]. *)
Lemma fetch_short_message (res : RecvResult) (tl tl' : list NetEvent)
    (self : TcpSourceSink) (h p1 p2 : bytes)
    (evs : list NetEvent) (srv : option ServerSocket) (t0 clk : option nat)
    (acc con : list Attempt) (tr : list Event) :
  (∀ n, recv_events true n tl = (res, tl')) →
  res = RecvData [] ∨ res = RecvBlocked →
  (0 < header_length (tcp_header self))%Z →
  Z.of_nat (length h) = header_length (tcp_header self) →
  (Z.of_nat (length (p1 ++ p2)) < get_message_size (tcp_header self) h)%Z →
  stream evs = Some p2 →
  unset_for (S (length (p1 ++ p2))) clk →
  ∃ clk',
    get_next_item self
      {| server_sock := srv;
         sock := Some {| connected := true; timeout := t0;
                         incoming := Seg (h ++ p1) :: evs ++ tl |};
         stop_clock := clk; accepts := acc; connects := con; trace := tr |}
    = match res with
      | RecvData _ =>
          Return false
            {| server_sock := srv; sock := None; stop_clock := clk';
               accepts := acc; connects := con; trace := tr ++ [EvClose] |}
      | _ =>
          Blocked
            {| server_sock := srv;
               sock := Some {| connected := true; timeout := None;
                               incoming := tl' |};
               stop_clock := clk'; accepts := acc; connects := con;
               trace := tr |}
      end.
Proof.
  intros Htl Hres HH Hlen Hsize Hs Hclk.
  destruct h as [|b h0] eqn:Hh; [simpl in Hlen; lia|]. rewrite <- Hh in *.
  assert (h ++ p1 = b :: (h0 ++ p1)) as Hcons by (by rewrite Hh).
  set (evs1 := match p1 with [] => evs | _ => Seg p1 :: evs end).
  assert (recv_events false (Z.to_nat (header_length (tcp_header self)))
            (Seg (h ++ p1) :: evs ++ tl) = (RecvData h, evs1 ++ tl)) as Hrecv.
  { rewrite <- Hlen, Nat2Z.id, Hcons, recv_events_segment, <- Hcons.
    rewrite take_app_length, drop_app_length. subst evs1. by destruct p1. }
  assert (stream evs1 = Some (p1 ++ p2)) as Hs1.
  { subst evs1. destruct p1; simpl; by rewrite Hs. }
  destruct (read_payload_short res tl tl'
              (Z.to_nat (get_message_size (tcp_header self) h))
              evs1 (p1 ++ p2) (get_message_size (tcp_header self) h) 0 []
              srv clk acc con tr)
    as (clk' & Hrun); [done|done|done|lia|lia|done|].
  exists clk'.
  unfold get_next_item, try_except, get_next_item_body.
  apply Z.ltb_lt in HH. rewrite HH. step_state.
  rewrite Hrecv, Hh, <- Hh.
  unfold after_header. step_state.
  rewrite Hrun. by destruct Hres as [-> | ->].
Qed.

(** X10.  The peer closes the connection inside a message: the header has
    arrived, with a part of the payload or none, and less than the announced
    size follows before the end of the stream.  While no stop is requested,
    the fetch step closes and forgets the socket and returns [False]; it
    publishes nothing, so that the header and the part of the payload that it
    has read are lost. *)
Theorem peer_close_inside_message (self : TcpSourceSink) (h p1 p2 : bytes)
    (evs evs2 : list NetEvent) (srv : option ServerSocket) (t0 clk : option nat)
    (acc con : list Attempt) (tr : list Event) :
  (0 < header_length (tcp_header self))%Z →
  Z.of_nat (length h) = header_length (tcp_header self) →
  (Z.of_nat (length (p1 ++ p2)) < get_message_size (tcp_header self) h)%Z →
  stream evs = Some p2 →
  unset_for (S (length (p1 ++ p2))) clk →
  ∃ clk',
    get_next_item self
      {| server_sock := srv;
         sock := Some {| connected := true; timeout := t0;
                         incoming := Seg (h ++ p1) :: evs ++ Fin :: evs2 |};
         stop_clock := clk; accepts := acc; connects := con; trace := tr |}
    = Return false
        {| server_sock := srv; sock := None; stop_clock := clk';
           accepts := acc; connects := con; trace := tr ++ [EvClose] |}.
Proof.
  intros HH Hlen Hsize Hs Hclk.
  by apply (fetch_short_message (RecvData []) (Fin :: evs2) (Fin :: evs2)
              self h p1 p2 evs srv t0 clk acc con tr); [|left| | | | |].
Qed.

(** The header [00 03], one byte of the three of the payload in the same
    segment, a second byte after a pause, and the end of the stream. *)
Lemma peer_close_inside_message_example :
  ∃ clk',
    get_next_item (example_node false true)
      {| server_sock := None;
         sock := Some {| connected := true; timeout := Some 1;
                         incoming := Seg ([x00; x03] ++ [xaa])
                                       :: [Idle; Seg [xbb]] ++ Fin :: [] |};
         stop_clock := None; accepts := []; connects := []; trace := [] |}
    = Return false
        {| server_sock := None; sock := None; stop_clock := clk';
           accepts := []; connects := []; trace := [] ++ [EvClose] |}.
Proof.
  apply (peer_close_inside_message (example_node false true) [x00; x03] [xaa]
           [xbb] [Idle; Seg [xbb]] [] None (Some 1) None [] [] []);
    [reflexivity|reflexivity|reflexivity|reflexivity|exact I].
Defined.

(** X11.  The peer goes silent inside a message: the header has arrived, and
    less than the announced size of payload, and nothing more comes.  The
    payload is read with no timeout, so the fetch step does not return: the
    thread stays in [recv], has published nothing, and reads the stop flag no
    more, whenever it is set from then on. *)
Theorem silent_peer_inside_message_blocks (self : TcpSourceSink)
    (h p1 p2 : bytes) (evs : list NetEvent) (srv : option ServerSocket)
    (t0 clk : option nat) (acc con : list Attempt) (tr : list Event) :
  (0 < header_length (tcp_header self))%Z →
  Z.of_nat (length h) = header_length (tcp_header self) →
  (Z.of_nat (length (p1 ++ p2)) < get_message_size (tcp_header self) h)%Z →
  stream evs = Some p2 →
  unset_for (S (length (p1 ++ p2))) clk →
  ∃ clk',
    get_next_item self
      {| server_sock := srv;
         sock := Some {| connected := true; timeout := t0;
                         incoming := Seg (h ++ p1) :: evs |};
         stop_clock := clk; accepts := acc; connects := con; trace := tr |}
    = Blocked
        {| server_sock := srv;
           sock := Some {| connected := true; timeout := None; incoming := [] |};
           stop_clock := clk'; accepts := acc; connects := con; trace := tr |}.
Proof.
  intros HH Hlen Hsize Hs Hclk.
  rewrite <- (app_nil_r evs).
  by apply (fetch_short_message RecvBlocked [] [] self h p1 p2 evs srv t0 clk
              acc con tr); [|right| | | | |].
Qed.

(** The same message, when nothing follows the second byte: the stop flag is
    set when the thread has read it three times, and it is in its third read
    of the payload then. *)
Lemma silent_peer_inside_message_blocks_example :
  ∃ clk',
    get_next_item (example_node false true)
      {| server_sock := None;
         sock := Some {| connected := true; timeout := Some 1;
                         incoming := Seg ([x00; x03] ++ [xaa])
                                       :: [Idle; Seg [xbb]] |};
         stop_clock := Some 3; accepts := []; connects := []; trace := [] |}
    = Blocked
        {| server_sock := None;
           sock := Some {| connected := true; timeout := None; incoming := [] |};
           stop_clock := clk'; accepts := []; connects := []; trace := [] |}.
Proof.
  apply (silent_peer_inside_message_blocks (example_node false true) [x00; x03]
           [xaa] [xbb] [Idle; Seg [xbb]] None (Some 1) (Some 3) [] [] []);
    [reflexivity|reflexivity|reflexivity|reflexivity|simpl; lia].
Defined.

(** ** A size below zero *)

(** X12.  When [get_message_size] returns a number below 0 for the header
    that was read, the fetch step reads no payload and publishes nothing: the
    header is dropped, the socket is kept and the step returns [True]. *)
Theorem negative_size_drops_header (self : TcpSourceSink) (hb : bytes)
    (evs evs' : list NetEvent) (srv : option ServerSocket) (t0 clk : option nat)
    (acc con : list Attempt) (tr : list Event) :
  (0 < header_length (tcp_header self))%Z →
  recv_events false (Z.to_nat (header_length (tcp_header self))) evs
    = (RecvData hb, evs') →
  hb ≠ [] →
  (get_message_size (tcp_header self) hb < 0)%Z →
  get_next_item self
    {| server_sock := srv;
       sock := Some {| connected := true; timeout := t0; incoming := evs |};
       stop_clock := clk; accepts := acc; connects := con; trace := tr |}
  = Return true
      {| server_sock := srv;
         sock := Some {| connected := true; timeout := Some (sock_timeout self);
                         incoming := evs' |};
         stop_clock := clk; accepts := acc; connects := con; trace := tr |}.
Proof.
  intros HH Hrecv Hne Hsize.
  unfold get_next_item, try_except, get_next_item_body.
  apply Z.ltb_lt in HH. rewrite HH. step_state.
  rewrite Hrecv. destruct hb as [|b hb]; [done|].
  unfold after_header. step_state.
  assert (∀ fuel, read_payload fuel
                    (get_message_size (tcp_header self) (b :: hb)) 0 []
                  = ret (inr (0%Z, []))) as ->.
  { intros fuel. destruct fuel; cbn [read_payload];
      by rewrite (proj2 (Z.ltb_ge _ _)) by lia. }
  step_state. rewrite bool_decide_eq_false_2 by lia. reflexivity.
Qed.

(** A header [00 01] for the strategy [inclusive_prefix]: a message that
    would be shorter than its own header. *)
Lemma negative_size_drops_header_example :
  get_next_item
    {| self_id := 1; node_name := "tcp"; ip_address := "127.0.0.1"; port := 5000;
       is_server := false; keep_header_data := true; sock_timeout := 1;
       tcp_header := inclusive_prefix;
       tcp_publisher := add_subscriber Publisher_init 9 |}
    {| server_sock := None;
       sock := Some {| connected := true; timeout := Some 1;
                       incoming := [Seg [x00; x01; xaa]] |};
       stop_clock := None; accepts := []; connects := []; trace := [] |}
  = Return true
      {| server_sock := None;
         sock := Some {| connected := true; timeout := Some 1;
                         incoming := [Seg [xaa]] |};
         stop_clock := None; accepts := []; connects := []; trace := [] |}.
Proof.
  apply (negative_size_drops_header
           {| self_id := 1; node_name := "tcp"; ip_address := "127.0.0.1";
              port := 5000; is_server := false; keep_header_data := true;
              sock_timeout := 1; tcp_header := inclusive_prefix;
              tcp_publisher := add_subscriber Publisher_init 9 |}
           [x00; x01] [Seg [x00; x01; xaa]] [Seg [xaa]] None (Some 1) None
           [] [] []);
    [reflexivity|reflexivity|discriminate|reflexivity].
Defined.

End NetProps.

(** * Properties of the thread of a source *)
Module ThreadProps.
Import Core Thread.

(** One turn of the loop of [Source.run]. *)
Lemma run_loop_S {X} (get_next_item : M X bool) (fuel : nat) (s : State X) :
  run_loop get_next_item (S fuel) s =
  bind is_set
    (λ stopped,
       if stopped then ret tt
       else bind get_next_item
              (λ ok, if negb ok then ret tt
                     else run_loop get_next_item fuel)) s.
Proof. reflexivity. Qed.

Lemma is_set_S {X} (k : nat) (a : X) :
  is_set {| stop_clock := Some (S k); attrs := a |} =
  Return false {| stop_clock := Some k; attrs := a |}.
Proof. reflexivity. Qed.

Lemma is_set_never {X} (a : X) :
  is_set {| stop_clock := None; attrs := a |} =
  Return false {| stop_clock := None; attrs := a |}.
Proof. reflexivity. Qed.

End ThreadProps.

(** * Properties of the UDP node *)
Module UdpProps.
Import Core Thread Udp.

















End UdpProps.

(** * Properties of hydra_rest *)
Module RestProps.
Import Core Thread Rest.

Section RestService.
Context {Item : Type}.
Implicit Types (self : RestService) (items : list Item).

(** A fetch step takes the head of the queue, when there is one, and
    publishes it; it returns [True] in any case. *)
Lemma get_next_item_takes self (clk : option nat) items (tr : list (Event Item)) :
  get_next_item self
    {| stop_clock := clk; attrs := {| q := items; trace := tr |} |}
  = Return true
      {| stop_clock := clk;
         attrs := {| q := drop 1 items;
                     trace := tr ++ mjoin (publication self <$> take 1 items) |} |}.
Proof.
  unfold get_next_item, bind, q_get. cbn [attrs q stop_clock trace].
  destruct items as [|item items]; unfold ret, modify, emit;
    cbn [attrs q stop_clock trace]; simpl; by rewrite ?app_nil_r.
Qed.

Lemma take_drop_S (k : nat) items :
  take 1 items ++ take k (drop 1 items) = take (S k) items
  ∧ drop k (drop 1 items) = drop (S k) items.
Proof. destruct items; simpl; by rewrite ?take_nil, ?drop_nil, ?drop_0. Qed.

(** The loop of [run] until the stop flag is set: one item of the queue is
    published in each turn, while there is one. *)
Lemma run_loop_until_stopped self (k : nat) : ∀ (n : nat) items (tr : list (Event Item)),
  run_loop (get_next_item self) (S (k + n))
    {| stop_clock := Some k; attrs := {| q := items; trace := tr |} |}
  = Return tt
      {| stop_clock := Some 0;
         attrs := {| q := drop k items;
                     trace := tr ++ mjoin (publication self <$> take k items) |} |}.
Proof.
  induction k as [|k IH]; intros n items tr.
  - simpl. by rewrite drop_0, app_nil_r.
  - rewrite ThreadProps.run_loop_S. unfold bind at 1.
    rewrite ThreadProps.is_set_S. unfold bind at 1.
    rewrite get_next_item_takes. cbn [negb].
    change (S k + n) with (S (k + n)). rewrite IH.
    destruct (take_drop_S k items) as [<- ->].
    by rewrite fmap_app, join_app, app_assoc.
Qed.

Lemma run_loop_goes_on self (fuel : nat) : ∀ items (tr : list (Event Item)),
  run_loop (get_next_item self) fuel
    {| stop_clock := None; attrs := {| q := items; trace := tr |} |}
  = OutOfFuel.
Proof.
  induction fuel as [|fuel IH]; intros items tr; [done|].
  rewrite ThreadProps.run_loop_S. unfold bind at 1.
  rewrite ThreadProps.is_set_never. unfold bind at 1.
  rewrite get_next_item_takes. cbn [negb]. by rewrite IH.
Qed.

(** X18.  The thread of a REST service: [run] starts the web server, and in
    each turn of its loop takes at most one item from the queue and publishes
    it; the items are published in the order of the queue.  A fetch step
    never returns [False], so the thread ends when the stop flag is set, with
    the items that it has not taken still in the queue, and it does not end
    when nobody sets the flag. *)
Theorem rest_service_publishes_until_stopped self (k n : nat) items :
  run self (S (k + n))
    {| stop_clock := Some k; attrs := {| q := items; trace := [] |} |}
  = Return tt
      {| stop_clock := Some 0;
         attrs := {| q := drop k items;
                     trace := EvServe (host self) (port self)
                                :: mjoin (publication self <$> take k items) |} |}
  ∧ ∀ fuel, run self fuel
              {| stop_clock := None; attrs := {| q := items; trace := [] |} |}
            = OutOfFuel.
Proof.
  split.
  - unfold run, Thread.run, bind, initialize, modify, emit.
    cbn [attrs q trace stop_clock app]. by rewrite run_loop_until_stopped.
  - intros fuel. unfold run, Thread.run, bind, initialize, modify, emit.
    cbn [attrs q trace stop_clock app]. by rewrite run_loop_goes_on.
Qed.

End RestService.

End RestProps.

(** * Properties of the nodes that pass items on *)
Module FlowProps.
Import Core Flow.

Section Flow.
Context {Item : Type}.
Implicit Types (heap : Heap Item) (item : option Item).
Implicit Types (log : list LogRecord).

(** One nested call. *)
Lemma notify_S (fuel : nat) heap (self publisher : ObjId) item log :
  notify (S fuel) heap self publisher item log =
  match obj_class (heap self) with
  | SourceClass => Raise AttributeError log
  | SinkClass => Raise NotImplementedError log
  | IntermediateNodeClass => notify_all fuel heap self item log
  | FilterClass check =>
      if check item then notify_all fuel heap self item log else Return tt log
  | TransformationClass transform =>
      match transform item with
      | Some v => notify_all fuel heap self (Some v) log
      | None => Return tt log
      end
  | LoggerNodeClass level to_string =>
      Return tt
        (log ++ [{| logger := obj_name (heap self); log_level := level;
                    message := "From " +:+ obj_name (heap publisher)
                               +:+ ": " +:+ to_string item |}])
  end.
Proof.
  cbn [notify]. unfold notify_all.
  destruct (obj_class (heap self)) as [| | |check|transform|level to_string];
    try done.
  by destruct (transform item).
Qed.

Lemma notify_all_singleton (fuel : nat) heap (self subscriber : ObjId) item log :
  obj_subscribers (heap self) = {[subscriber]} →
  notify_all fuel heap self item log = notify fuel heap subscriber self item log.
Proof.
  intros Hsubs. unfold notify_all. rewrite Hsubs, elements_singleton. simpl.
  by destruct (notify fuel heap subscriber self item log) as [[] ?| | |].
Qed.

Lemma notify_all_pipeline (source_name filter_name transformation_name
                           logger_name : string)
    (check : option Item → bool) (transform : option Item → option Item)
    (level : Z) (to_string : option Item → string) (fuel : nat) item log :
  notify_all (3 + fuel)
    (pipeline source_name filter_name transformation_name logger_name
              check transform level to_string) 1 item log
  = Return tt (log ++ logged transformation_name logger_name check transform
                        level to_string item).
Proof.
  unfold logged.
  rewrite (notify_all_singleton _ _ 1 2) by done.
  cbn [Nat.add]. rewrite notify_S. cbn [pipeline obj_class].
  destruct (check item); [|by rewrite app_nil_r].
  rewrite (notify_all_singleton _ _ 2 3) by done.
  rewrite notify_S. cbn [pipeline obj_class].
  destruct (transform item) as [v|]; [|by rewrite app_nil_r].
  rewrite (notify_all_singleton _ _ 3 4) by done.
  by rewrite notify_S.
Qed.

(** X19.  A source whose items go through a filter, then through a
    transformation, to a logger.  For each item that the source publishes,
    in the order in which it publishes them, the logger makes one [log] call
    when [check] accepts the item and [transform] does not turn it into
    [None], with the transformed item and the name of the transformation,
    the publisher that notified the logger; for the other items it makes
    none.  Every [notify_all] of the source returns. *)
Theorem pipeline_logs_what_passes (source_name filter_name transformation_name
                                   logger_name : string)
    (check : option Item → bool) (transform : option Item → option Item)
    (level : Z) (to_string : option Item → string) (fuel : nat)
    (items : list (option Item)) log :
  notify_all_items (3 + fuel)
    (pipeline source_name filter_name transformation_name logger_name
              check transform level to_string) 1 items log
  = Return tt
      (log ++ mjoin (logged transformation_name logger_name check transform
                            level to_string <$> items)).
Proof.
  revert log. induction items as [|item items IH]; intros log.
  - simpl. by rewrite app_nil_r.
  - cbn [notify_all_items]. rewrite notify_all_pipeline, IH.
    rewrite fmap_cons. cbn [mjoin list_join]. by rewrite app_assoc.
Qed.

(** A loop over subscribers of which one makes the body not return does not
    return. *)
Lemma for_each_no_return (subscribers : list ObjId)
    (body : ObjId → list LogRecord → Outcome (list LogRecord) unit)
    (subscriber : ObjId) :
  subscriber ∈ subscribers →
  (∀ log, no_return (body subscriber log)) →
  ∀ log, no_return (for_each subscribers body log).
Proof.
  intros Hin Hbody. induction subscribers as [|x subscribers IH]; intros log.
  - by apply elem_of_nil in Hin.
  - simpl. destruct (decide (x = subscriber)) as [->|Hne].
    + specialize (Hbody log). by destruct (body subscriber log).
    + destruct (body x log); try done. apply IH.
      apply elem_of_cons in Hin as [Hin|Hin]; [congruence|done].
Qed.

Lemma notify_sink_no_return (fuel : nat) heap (self publisher : ObjId) item log :
  obj_class (heap self) = SinkClass →
  no_return (notify fuel heap self publisher item log).
Proof.
  intros Hclass. destruct fuel as [|fuel]; [done|].
  by rewrite notify_S, Hclass.
Qed.

(** X20.  A subscriber of a class that does not override [notify], a [Sink]
    or a bare [Subscriber]: no [notify_all] of its publisher returns, and no
    [notify] of an intermediate node that it has subscribed to; when it is
    the only subscriber, the publisher's [notify_all] raises
    [NotImplementedError]. *)
Theorem plain_sink_breaks_its_publisher heap (p subscriber q : ObjId)
    (fuel : nat) item log :
  subscriber ∈ obj_subscribers (heap p) →
  obj_class (heap subscriber) = SinkClass →
  no_return (notify_all fuel heap p item log)
  ∧ (obj_class (heap p) = IntermediateNodeClass →
     no_return (notify fuel heap p q item log))
  ∧ (obj_subscribers (heap p) = {[subscriber]} →
     notify_all (S fuel) heap p item log = Raise NotImplementedError log).
Proof.
  intros Hin Hclass.
  assert (∀ fuel log, no_return (notify_all fuel heap p item log)) as Hall.
  { intros fuel' log'. unfold notify_all.
    apply (for_each_no_return _ _ subscriber).
    - by apply elem_of_elements.
    - intros log''. by apply notify_sink_no_return. }
  split; [apply Hall|]. split.
  - intros Hp. destruct fuel as [|fuel]; [done|].
    rewrite notify_S, Hp. apply Hall.
  - intros Hsubs. rewrite (notify_all_singleton _ _ p subscriber) by done.
    by rewrite notify_S, Hclass.
Qed.

(** X21.  An intermediate node that is its own and only subscriber: the
    [notify] calls nest without end, so that no depth of nesting is enough
    for a [notify] on it to come to an end. *)
Theorem self_subscription_never_ends heap (n : ObjId) (fuel : nat) :
  obj_class (heap n) = IntermediateNodeClass →
  obj_subscribers (heap n) = {[n]} →
  ∀ (publisher : ObjId) item log,
    notify fuel heap n publisher item log = OutOfFuel.
Proof.
  intros Hclass Hsubs. induction fuel as [|fuel IH]; intros publisher item log;
    [done|].
  rewrite notify_S, Hclass, (notify_all_singleton _ _ n n) by done.
  apply IH.
Qed.

End Flow.

Lemma plain_sink_breaks_its_publisher_example :
  no_return (notify_all 3 heap_with_plain_sink 1 (Some 7) [])
  ∧ (obj_class (heap_with_plain_sink 1) = IntermediateNodeClass →
     no_return (notify 3 heap_with_plain_sink 1 0 (Some 7) []))
  ∧ (obj_subscribers (heap_with_plain_sink 1) = {[3]} →
     notify_all (S 3) heap_with_plain_sink 1 (Some 7) []
     = Raise NotImplementedError []).
Proof.
  apply (plain_sink_breaks_its_publisher heap_with_plain_sink 1 3 0 3 (Some 7) []).
  - apply (bool_decide_unpack _). vm_compute. exact I.
  - reflexivity.
Defined.

Lemma self_subscription_never_ends_example :
  notify 100 heap_with_loop 1 2 (Some 7) [] = OutOfFuel.
Proof.
  apply (self_subscription_never_ends heap_with_loop 1 100); reflexivity.
Defined.

End FlowProps.

(** * Properties of the header strategy of example.py *)
Module ExampleProps.
Import Core Net Example.

(** A read returns at most as many bytes as were asked for. *)
Lemma recv_events_length (blocking : bool) (n : nat) (evs evs' : list NetEvent)
    (data : bytes) :
  recv_events blocking n evs = (RecvData data, evs') → length data ≤ n.
Proof.
  induction evs as [|ev evs IH]; simpl.
  - by destruct blocking.
  - destruct ev as [[|b d]| | |]; try done.
    + intros [= <- _]. rewrite length_take. lia.
    + destruct blocking; [done|]. discriminate.
    + intros [= <- _]. simpl. lia.
Qed.

Lemma be_value_byte (b : byte) : (0 ≤ be_value [b] < 256)%Z.
Proof.
  unfold be_value. simpl.
  pose proof (Byte.to_N_bounded b) as Hb. lia.
Qed.

(** X23.  The header strategy of [example.py] on what the TCP node's read of
    the header returns, a read of [header_length], that is 3, bytes: when the
    read returns all three, the size of the payload is the value of the third
    byte, between 0 and 255, whatever the sequence number in the first two;
    when it returns fewer, [struct.unpack] raises. *)
Theorem my_tcp_header_size (blocking : bool) (evs evs' : list NetEvent)
    (header_bytes : bytes) :
  recv_events blocking (Z.to_nat MyTcpHeader_header_length) evs
    = (RecvData header_bytes, evs') →
  match MyTcpHeader_get_message_size header_bytes with
  | Some size =>
      (0 ≤ size < 256)%Z
      ∧ ∃ b0 b1 b2, header_bytes = [b0; b1; b2]
                    ∧ size = Z.of_N (Byte.to_N b2)
  | None => length header_bytes < 3
  end.
Proof.
  intros Hrecv. apply recv_events_length in Hrecv.
  change (Z.to_nat MyTcpHeader_header_length) with 3 in Hrecv.
  unfold MyTcpHeader_get_message_size, unpack_HB.
  destruct header_bytes as [|b0 [|b1 [|b2 [|b3 rest]]]]; simpl in *; try lia.
  split; [apply be_value_byte|]. by exists b0, b1, b2.
Qed.

(** A header that arrives whole, with the payload behind it. *)
Lemma my_tcp_header_size_example :
  match MyTcpHeader_get_message_size [x00; x07; x02] with
  | Some size =>
      (0 ≤ size < 256)%Z
      ∧ ∃ b0 b1 b2, [x00; x07; x02] = [b0; b1; b2]
                    ∧ size = Z.of_N (Byte.to_N b2)
  | None => length [x00; x07; x02] < 3
  end.
Proof.
  apply (my_tcp_header_size false [Seg [x00; x07; x02; xaa; xbb]] [Seg [xaa; xbb]]
           [x00; x07; x02]).
  reflexivity.
Defined.

End ExampleProps.
